(** * testdeck/runner: the dependency bridge of [deps.go]

    A shallow embedding of [src/runner/deps.go] and the properties of its
    pattern cache ([MatchString]), its corpus check ([CheckCorpus]) and its
    action logger ([testLog], [StartTestLog], [StopTestLog]).

    Conventions.
    - A Go [string] is a Rocq [string]; the bytes a [bufio.Writer] holds are
      a [list ascii].
    - A Go call that can panic returns an [outcome]: [Returns v] or [Panics].
    - Package-level variables ([matchPat], [matchRe], [log]) are fields of an
      explicit state that every operation takes and gives back.
    - Packages of the Go library ([regexp], [reflect], [bufio], [io]) are not
      part of the repository.  [regexp] and [reflect] are taken as
      parameters; [bufio.Writer] is modelled after its documented behaviour
      (a 4096-byte buffer, a sticky error, a flush when the buffer is full). *)

From Stdlib Require Import Ascii String.
From stdpp Require Import base option list strings gmap.

Local Open Scope string_scope.
Local Open Scope nat_scope.
Local Open Scope list_scope.

(** ** Outcomes of calls that may panic *)

Inductive outcome (A : Type) : Type :=
  | Returns (a : A)
  | Panics.
Arguments Returns {A} a.
Arguments Panics {A}.

#[global] Instance outcome_ret : MRet outcome := λ A a, Returns a.
#[global] Instance outcome_bind : MBind outcome := λ A B f m,
  match m with
  | Returns a => f a
  | Panics => Panics
  end.

Definition returned {A} (m : outcome A) : Prop := ∃ a, m = Returns a.

(** ** [strings.Contains] *)

(** [strings.Contains(s, substr)]: [substr] occurs somewhere within [s]. *)
Fixpoint Contains (s substr : string) : bool :=
  String.prefix substr s ||
  match s with
  | EmptyString => false
  | String _ s' => Contains s' substr
  end.

Definition LF : ascii := "010"%char.
Definition SP : ascii := " "%char.

(** The Go literal ["\n"]. *)
Definition newline : string := String LF EmptyString.

(** * The pattern cache: [matchPat], [matchRe] and [MatchString] *)

Module PatternCache.
Section WithRegexp.

(** [*regexp.Regexp] values, the errors of [regexp.Compile], and the two
    library functions the code calls.  [regexp.Compile] gives back either
    a matcher or an error (and then a nil matcher). *)
Context {Regexp Err : Type}.
Variable Compile : string → Regexp + Err.
Variable ReMatchString : Regexp → string → bool.

(** [var matchPat string] and [var matchRe *regexp.Regexp]. *)
Record cache : Type := Cache {
  matchPat : string;
  matchRe : option Regexp;
}.

(** The zero values the package starts with. *)
Definition init : cache := {| matchPat := ""; matchRe := None |}.

(** What a compilation leaves in [matchRe]. *)
Definition compiled (pat : string) : option Regexp :=
  match Compile pat with
  | inl re => Some re
  | inr _ => None
  end.

(** [func (TestDeps) MatchString(pat, str string) (result bool, err error)].
    The named results start as [false] and [nil]; the bare [return] after a
    failed compilation gives back [false] and the error.  The last line
    calls a method of [matchRe], which panics on a nil pointer. *)
Definition MatchString (pat str : string) (c : cache)
    : outcome (bool * option Err) * cache :=
  let '(c1, err) :=
    if bool_decide (matchRe c = None) || negb (String.eqb (matchPat c) pat) then
      let c0 := {| matchPat := pat; matchRe := matchRe c |} in
      match Compile (matchPat c0) with
      | inl re => ({| matchPat := matchPat c0; matchRe := Some re |}, None)
      | inr e => ({| matchPat := matchPat c0; matchRe := None |}, Some e)
      end
    else (c, None) in
  match err with
  | Some e => (Returns (false, Some e), c1)
  | None =>
      match matchRe c1 with
      | Some re => (Returns (ReMatchString re str, None), c1)
      | None => (Panics, c1)
      end
  end.

(** What a call that compiles [pat] returns and leaves in the cache: the
    match against the new matcher, or [false] and the compilation error. *)
Definition recompile (pat str : string) : outcome (bool * option Err) * cache :=
  match Compile pat with
  | inl re => (Returns (ReMatchString re str, None),
               {| matchPat := pat; matchRe := Some re |})
  | inr e => (Returns (false, Some e), {| matchPat := pat; matchRe := None |})
  end.

(** The cache states the package can be in: the two variables are written
    by [MatchString] only. *)
Inductive reachable : cache → Prop :=
  | reachable_init : reachable init
  | reachable_call pat str c :
      reachable c → reachable (MatchString pat str c).2.

(** A cached matcher is the compilation of the cached pattern. *)
Definition cache_ok (c : cache) : Prop :=
  ∀ re, matchRe c = Some re → Compile (matchPat c) = inl re.

End WithRegexp.
End PatternCache.

(** * The corpus check: [CheckCorpus] *)

Module Corpus.
Section WithReflect.

(** [any] values and the type descriptors of package [reflect].  A
    [reflect.Type] is an interface value: [None] is its nil, which is what
    [reflect.TypeOf] gives for a nil interface value and what [make] fills a
    new slice with.  Type descriptors compare with [==] without panicking. *)
Context {any rtype : Type} `{EqDecision rtype}.
Variable TypeOf : any → option rtype.

(** An argument handed to [fmt.Errorf]: [%d] takes a length, [%v] a slice of
    types. *)
Inductive arg : Type :=
  | ArgInt (n : nat)
  | ArgTypes (ts : list (option rtype)).

(** The error [fmt.Errorf(format, args...)] builds. *)
Inductive error : Type :=
  | Errorf (format : string) (args : list arg).

(** [l[i] = x] on a slice: a panic when [i] is out of range. *)
Definition store {A} (l : list A) (i : nat) (x : A) : outcome (list A) :=
  if decide (i < length l) then Returns (<[i:=x]> l) else Panics.

(** [l[i]] on a slice: a panic when [i] is out of range. *)
Definition index {A} (l : list A) (i : nat) : outcome A :=
  match l !! i with
  | Some x => Returns x
  | None => Panics
  end.

(** [for valsI, v := range vals { valsT[valsI] = reflect.TypeOf(v) }],
    from index [valsI] on. *)
Fixpoint fillTypes (valsI : nat) (vals : list any) (valsT : list (option rtype))
    : outcome (list (option rtype)) :=
  match vals with
  | [] => Returns valsT
  | v :: vals' =>
      valsT' ← store valsT valsI (TypeOf v);
      fillTypes (S valsI) vals' valsT'
  end.

Definition countFormat : string :=
  "wrong number of values in corpus entry: %d, want %d".
Definition typesFormat : string :=
  "mismatched types in corpus entry: %v, want %v".

(** [for i := range types { if valsT[i] != types[i] { return ... } }] over
    the indices [ix] still to visit, then [return nil]. *)
Fixpoint checkTypes (ix : list nat) (valsT types : list (option rtype))
    : outcome (option error) :=
  match ix with
  | [] => Returns None
  | i :: ix' =>
      t ← index valsT i;
      u ← index types i;
      if decide (t ≠ u)
      then Returns (Some (Errorf typesFormat [ArgTypes valsT; ArgTypes types]))
      else checkTypes ix' valsT types
  end.

(** [func (TestDeps) CheckCorpus(vals []any, types []reflect.Type) error]. *)
Definition CheckCorpus (vals : list any) (types : list (option rtype))
    : outcome (option error) :=
  if decide (length vals ≠ length types) then
    Returns (Some (Errorf countFormat [ArgInt (length vals); ArgInt (length types)]))
  else
    valsT ← fillTypes 0 vals (replicate (length vals) None);
    checkTypes (seq 0 (length types)) valsT types.

End WithReflect.
End Corpus.

(** * [io.Writer] sinks and [bufio.Writer] *)

Module Bufio.

(** The errors a write can end with: the error of sink [k]'s own [Write],
    and [io.ErrShortWrite]. *)
Inductive ioerror : Type :=
  | ErrWrite (k : nat)
  | ErrShortWrite.

#[global] Instance ioerror_eq_dec : EqDecision ioerror.
Proof. solve_decision. Defined.

(** An [io.Writer] other than a [*bufio.Writer] (a file, a pipe): the bytes
    it has taken so far, how many more it takes before its [Write] fails
    ([None]: it never fails), and whether it also has a [WriteString]
    method.  A [Write] that takes fewer bytes than it was given returns an
    error, as [io.Writer] requires. *)
Record sink : Type := Sink {
  written : list ascii;
  room : option nat;
  stringWriter : bool;
}.

#[global] Instance sink_inhabited : Inhabited sink := populate (Sink [] None false).

(** The sinks of the process, by address.  An address nothing was stored at
    holds an empty sink that never fails. *)
Abbreviation sinks := (gmap nat sink).

(** [n, err := w.Write(p)] (and [w.WriteString], which takes the same
    bytes) on the sink at address [k]. *)
Definition sinkWrite (p : list ascii) (k : nat) (σ : sinks)
    : nat * option ioerror * sinks :=
  let f := σ !!! k in
  let n := match room f with
           | None => length p
           | Some r => r `min` length p
           end in
  (n,
   if decide (n < length p) then Some (ErrWrite k) else None,
   <[k := {| written := written f ++ take n p;
             room := (λ r, r - n) <$> room f;
             stringWriter := stringWriter f |}]> σ).

(** [bufio.Writer]: the sink [wr] it writes to, the bytes [buf[0:n]] it
    holds, and its sticky error. *)
Record writer : Type := Writer {
  wr : nat;
  buf : list ascii;
  err : option ioerror;
}.

Definition defaultBufSize : nat := 4096.

(** [bufio.NewWriter(w)] for a sink [w] that is not itself a
    [*bufio.Writer]: a new writer with an empty buffer of
    [defaultBufSize] bytes. *)
Definition NewWriter (k : nat) : writer := {| wr := k; buf := []; err := None |}.

Definition Available (b : writer) : nat := defaultBufSize - length (buf b).
Definition Buffered (b : writer) : nat := length (buf b).

(** [n := copy(b.buf[b.n:], s); b.n += n]. *)
Definition copyIn (s : list ascii) (b : writer) : nat * writer :=
  let n := Available b `min` length s in
  (n, {| wr := wr b; buf := buf b ++ take n s; err := err b |}).

(** [func (b *Writer) Flush() error]. *)
Definition Flush (b : writer) (σ : sinks) : option ioerror * writer * sinks :=
  match err b with
  | Some e => (Some e, b, σ)
  | None =>
      if decide (Buffered b = 0) then (None, b, σ) else
      let '(n, e, σ') := sinkWrite (buf b) (wr b) σ in
      let e := if decide (n < Buffered b ∧ e = None) then Some ErrShortWrite else e in
      match e with
      | Some e => (Some e, {| wr := wr b; buf := drop n (buf b); err := Some e |}, σ')
      | None => (None, {| wr := wr b; buf := []; err := None |}, σ')
      end
  end.

(** [func (b *Writer) WriteByte(c byte) error], as the state it leaves
    (the error it returns is [b.err]). *)
Definition WriteByte (c : ascii) (st : writer * sinks) : writer * sinks :=
  let '(b, σ) := st in
  match err b with
  | Some _ => (b, σ)
  | None =>
      let '(e, b1, σ1) :=
        if decide (Available b ≤ 0)%nat then Flush b σ else (None, b, σ) in
      match e with
      | Some _ => (b1, σ1)
      | None => ({| wr := wr b1; buf := buf b1 ++ [c]; err := err b1 |}, σ1)
      end
  end.

(** The loop of [func (b *Writer) WriteString(s string) (int, error)]:
    while [s] does not fit and no error is pending, either hand [s] to the
    sink's own [WriteString] (empty buffer, sink has the method) or fill the
    buffer and flush it; then copy what is left of [s].  [None]: the loop
    did not end within [fuel] rounds. *)
Fixpoint WriteString_loop (fuel : nat) (s : list ascii) (b : writer) (σ : sinks)
    : option (writer * sinks) :=
  if decide (Available b < length s ∧ err b = None) then
    match fuel with
    | 0 => None
    | S fuel' =>
        if bool_decide (Buffered b = 0) && stringWriter (σ !!! wr b) then
          let '(n, e, σ') := sinkWrite s (wr b) σ in
          WriteString_loop fuel' (drop n s)
            {| wr := wr b; buf := buf b; err := e |} σ'
        else
          let '(n, b1) := copyIn s b in
          let '(_, b2, σ2) := Flush b1 σ in
          WriteString_loop fuel' (drop n s) b2 σ2
    end
  else
    match err b with
    | Some _ => Some (b, σ)
    | None => Some ((copyIn s b).2, σ)
    end.

(** [func (b *Writer) WriteString(s string) (int, error)], as the state it
    leaves.  The loop ends within [2 * len(s) + 2] rounds
    ([WriteString_loop_total] below), so the second branch is never taken. *)
Definition WriteString (s : string) (st : writer * sinks) : writer * sinks :=
  let p := list_ascii_of_string s in
  match WriteString_loop (2 * length p + 2) p st.1 st.2 with
  | Some st' => st'
  | None => st
  end.


(** The sink of [b] takes the buffered bytes and [n] more without failing. *)
Definition roomy (n : nat) (b : writer) (σ : sinks) : Prop :=
  match room (σ !!! wr b) with
  | None => True
  | Some r => (length (buf b) + n ≤ r)%nat
  end.

(** Between [σ] and [σ'] the sink at [k] took the bytes [p], and no other
    sink changed. *)
Definition pushed (k : nat) (p : list ascii) (σ σ' : sinks) : Prop :=
  written (σ' !!! k) = written (σ !!! k) ++ p ∧
  room (σ' !!! k) = (λ r, r - length p) <$> room (σ !!! k) ∧
  stringWriter (σ' !!! k) = stringWriter (σ !!! k) ∧
  ∀ j, j ≠ k → σ' !!! j = σ !!! j.

(** From [st] to [st'] the writer took the bytes [p] without an error: it
    is the same writer on the same sink, some bytes [flushed] went to the
    sink, and these followed by the new buffer are the old buffer followed
    by [p]. *)
Definition wrote (p : list ascii) (st st' : writer * sinks) : Prop :=
  err st'.1 = None ∧
  wr st'.1 = wr st.1 ∧
  ∃ flushed,
    pushed (wr st.1) flushed st.2 st'.2 ∧
    flushed ++ buf st'.1 = buf st.1 ++ p.

(** The buffer of [b] has space for [n] more bytes. *)
Definition fits (n : nat) (b : writer) : Prop :=
  length (buf b) + n ≤ defaultBufSize.

(** A bound on the rounds [WriteString_loop] needs. *)
Definition rounds (s : list ascii) (b : writer) : nat :=
  2 * length s + (if decide (Available b = 0) then 1 else 0).

(** From [st] to [st'] the writer was given the bytes [p], whatever its
    sink did with them: it is the same writer on the same sink; a writer
    that had an error took nothing; some bytes [flushed] went to the sink,
    and these followed by the new buffer are the old buffer followed by [p]
    when the writer has no error, and are a prefix of that when it has
    one. *)
Definition gave (p : list ascii) (st st' : writer * sinks) : Prop :=
  wr st'.1 = wr st.1 ∧
  (err st.1 ≠ None → st' = st) ∧
  ∃ flushed,
    pushed (wr st.1) flushed st.2 st'.2 ∧
    match err st'.1 with
    | None => flushed ++ buf st'.1 = buf st.1 ++ p
    | Some _ => flushed `prefix_of` buf st.1 ++ p
    end.

End Bufio.

(** * The action logger: [testLog], [StartTestLog], [StopTestLog] *)

Module Logger.
Import Bufio.

(** [type testLog struct { mu sync.Mutex; w *bufio.Writer; set bool }].
    Every method takes [mu] before it reads or writes [w] and [set] and
    holds it until it returns (a deferred [Unlock] in [add] and
    [StopTestLog], also on a panic), so a call is one step of this model and
    [mu] is free between calls. *)
Record testLog : Type := TestLog {
  w : option writer;
  set : bool;
}.

(** The process: [var log testLog], the sinks, and the logger registry. *)
Record world : Type := World {
  log : testLog;
  files : sinks;
  registered : nat;
}.

(** The process before any call: [log] holds its zero value. *)
Definition start (σ : sinks) : world :=
  {| log := {| w := None; set := false |}; files := σ; registered := 0 |}.

(** Modelled from the spec: [SetLogger], the registration of a logger with
    the process-wide registry, whose file is not among the sources.  The
    model counts the registrations the registry received. *)
Definition SetLogger (s : world) : world :=
  {| log := log s; files := files s; registered := S (registered s) |}.

(** [func (l *testLog) add(op, name string)]. *)
Definition add (op name : string) (s : world) : world :=
  if Contains name newline || bool_decide (name = "") then s else
  match w (log s) with
  | None => s
  | Some b =>
      let st := WriteString op (b, files s) in
      let st := WriteByte SP st in
      let st := WriteString name st in
      let st := WriteByte LF st in
      {| log := {| w := Some st.1; set := set (log s) |};
         files := st.2;
         registered := registered s |}
  end.

Definition Getenv (key : string) : world → world := add "getenv" key.
Definition Open (name : string) : world → world := add "open" name.
Definition Stat (name : string) : world → world := add "stat" name.
Definition Chdir (name : string) : world → world := add "chdir" name.

Definition header : string := "# test log" +:+ newline.

(** [func (TestDeps) StartTestLog(w io.Writer)], for the sink at [k]. *)
Definition StartTestLog (k : nat) (s : world) : world :=
  let b := NewWriter k in
  let s1 := {| log := {| w := Some b; set := set (log s) |};
               files := files s; registered := registered s |} in
  if negb (set (log s1)) then
    let s2 := {| log := {| w := w (log s1); set := true |};
                 files := files s1; registered := registered s1 |} in
    let s3 := SetLogger s2 in
    let st := WriteString header (b, files s3) in
    {| log := {| w := Some st.1; set := set (log s3) |};
       files := st.2; registered := registered s3 |}
  else s1.

(** [func (TestDeps) StopTestLog() error]: [log.w.Flush()] panics on a nil
    [log.w], before [log.w = nil] is reached. *)
Definition StopTestLog (s : world) : outcome (option ioerror) * world :=
  match w (log s) with
  | None => (Panics, s)
  | Some b =>
      let '(e, _, σ) := Flush b (files s) in
      (Returns e,
       {| log := {| w := None; set := set (log s) |};
          files := σ; registered := registered s |})
  end.

(** The calls a process makes on the logger. *)
Inductive call : Type :=
  | CGetenv (key : string)
  | COpen (name : string)
  | CStat (name : string)
  | CChdir (name : string)
  | CStart (k : nat)
  | CStop.

Definition isStart (c : call) : bool :=
  match c with CStart _ => true | _ => false end.
Definition isStop (c : call) : bool :=
  match c with CStop => true | _ => false end.
Definition isRecord (c : call) : bool := negb (isStart c) && negb (isStop c).

(** One call; a panic of [StopTestLog] that the caller recovers from leaves
    the state it found. *)
Definition step (s : world) (c : call) : world :=
  match c with
  | CGetenv key => Getenv key s
  | COpen name => Open name s
  | CStat name => Stat name s
  | CChdir name => Chdir name s
  | CStart k => StartTestLog k s
  | CStop => (StopTestLog s).2
  end.

Definition run (cs : list call) (s : world) : world := foldl step s cs.

(** The state [s] with [slot] in the writer slot [log.w]. *)
Definition plugged (slot : option writer) (s : world) : world :=
  {| log := {| w := slot; set := set (log s) |};
     files := files s; registered := registered s |}.

(** The line a record call is to log. *)
Definition line (op name : string) : list ascii :=
  list_ascii_of_string op ++ [SP] ++ list_ascii_of_string name ++ [LF].

(** The line a call leaves in the log: the line of a record call with a
    good name, nothing for any other call. *)
Definition lineOf (c : call) : list ascii :=
  let rec (op name : string) :=
    if Contains name newline || bool_decide (name = "") then []
    else line op name in
  match c with
  | CGetenv key => rec "getenv" key
  | COpen name => rec "open" name
  | CStat name => rec "stat" name
  | CChdir name => rec "chdir" name
  | CStart _ | CStop => []
  end.

Definition logged (cs : list call) : list ascii := mjoin (lineOf <$> cs).

(** The state [s] has a writer over [k] that took the bytes [p] since it
    was made on the sinks [σ]. *)
Definition logging (k : nat) (p : list ascii) (σ : sinks) (s : world) : Prop :=
  ∃ b, w (log s) = Some b ∧ wrote p (NewWriter k, σ) (b, files s).

(** What [StartTestLog] writes to the writer it installs on [s]: the
    header when [log.set] is not set yet, nothing otherwise. *)
Definition preamble (s : world) : list ascii :=
  if set (log s) then [] else list_ascii_of_string header.

(** The operation and the name a call gets past the first check of [add]
    with: those of a record call with a good name. *)
Definition recordOf (c : call) : option (string * string) :=
  let rec (op name : string) :=
    if Contains name newline || bool_decide (name = "") then None
    else Some (op, name) in
  match c with
  | CGetenv key => rec "getenv" key
  | COpen name => rec "open" name
  | CStat name => rec "stat" name
  | CChdir name => rec "chdir" name
  | CStart _ | CStop => None
  end.

(** One run of the harness ([m.Run]): [StartTestLog] on the sink at [k],
    the calls [cs], [StopTestLog]. *)
Definition session (k : nat) (cs : list call) : list call :=
  CStart k :: cs ++ [CStop].

End Logger.

(** * Goroutines calling the logger *)

(** A model of several goroutines, each making one call on the logger.  A
    goroutine that holds [mu] executes the statements of its method one at
    a time; goroutines are scheduled in any order; [Lock] on a held mutex
    cannot step.  [sync.Mutex] is taken to be a lock with exclusive
    acquisition, and a write to a sink to return. *)
Module Concurrent.
Import Bufio Logger.

(** The statements between [Lock] and [Unlock]. *)
Inductive stmt : Type :=
  | SNilCheck                    (* if l.w == nil { return } *)
  | SWriteString (str : string)  (* l.w.WriteString(str) *)
  | SWriteByte (c : ascii)       (* l.w.WriteByte(c) *)
  | SNewWriter (k : nat)         (* log.w = bufio.NewWriter(w) *)
  | SUnlessSet (n : nat)         (* if !log.set { the next n statements } *)
  | SSetFlag                     (* log.set = true *)
  | SSetLogger                   (* SetLogger(&log) *)
  | SFlush                       (* err := log.w.Flush() *)
  | SClear.                      (* log.w = nil *)

(** Where control goes after a statement. *)
Inductive control : Type :=
  | Continue
  | ReturnNow
  | Skip (n : nat)
  | Panic.

(** One statement, on the shared state [s] and the local variable [err]
    of [StopTestLog] ([ret]).  A method call on a nil [w] panics. *)
Definition exec (st : stmt) (s : world) (ret : option ioerror)
    : control * world * option ioerror :=
  match st with
  | SNilCheck =>
      (if w (log s) is None then ReturnNow else Continue, s, ret)
  | SWriteString str =>
      match w (log s) with
      | None => (Panic, s, ret)
      | Some b =>
          let st := WriteString str (b, files s) in
          (Continue,
           {| log := {| w := Some st.1; set := set (log s) |};
              files := st.2; registered := registered s |}, ret)
      end
  | SWriteByte c =>
      match w (log s) with
      | None => (Panic, s, ret)
      | Some b =>
          let st := WriteByte c (b, files s) in
          (Continue,
           {| log := {| w := Some st.1; set := set (log s) |};
              files := st.2; registered := registered s |}, ret)
      end
  | SNewWriter k => (Continue, plugged (Some (NewWriter k)) s, ret)
  | SUnlessSet n => (if set (log s) then Skip n else Continue, s, ret)
  | SSetFlag =>
      (Continue,
       {| log := {| w := w (log s); set := true |};
          files := files s; registered := registered s |}, ret)
  | SSetLogger => (Continue, SetLogger s, ret)
  | SFlush =>
      match w (log s) with
      | None => (Panic, s, ret)
      | Some b =>
          let '(e, b', σ) := Flush b (files s) in
          (Continue,
           {| log := {| w := Some b'; set := set (log s) |};
              files := σ; registered := registered s |}, e)
      end
  | SClear => (Continue, plugged None s, ret)
  end.

Definition addCode (op name : string) : list stmt :=
  [SNilCheck; SWriteString op; SWriteByte SP; SWriteString name; SWriteByte LF].

(** The statements of each method between its [Lock] and its [Unlock]. *)
Definition code (c : call) : list stmt :=
  match c with
  | CGetenv key => addCode "getenv" key
  | COpen name => addCode "open" name
  | CStat name => addCode "stat" name
  | CChdir name => addCode "chdir" name
  | CStart k => [SNewWriter k; SUnlessSet 3; SSetFlag; SSetLogger;
                 SWriteString header]
  | CStop => [SFlush; SClear]
  end.

(** Whether the call gets to [Lock]: [add] returns before it for an empty
    name or a name with a newline. *)
Definition guard (c : call) : bool :=
  let good (name : string) :=
    negb (Contains name newline || bool_decide (name = "")) in
  match c with
  | CGetenv key => good key
  | COpen name | CStat name | CChdir name => good name
  | CStart _ | CStop => true
  end.

(** Whether [Unlock] is deferred, and so runs on a panic too. *)
Definition deferred (c : call) : bool := negb (isStart c).

(** What the call returns when it runs alone on [s]. *)
Definition result (c : call) (s : world) : outcome (option ioerror) :=
  match c with
  | CStop => (StopTestLog s).1
  | _ => Returns None
  end.

(** The statements [cd] run to the end by one goroutine alone, the first
    [skip] of them skipped. *)
Fixpoint exec_all (cd : list stmt) (s : world) (ret : option ioerror)
    (skip : nat) : outcome (option ioerror) * world :=
  match cd with
  | [] => (Returns ret, s)
  | st :: rest =>
      match skip with
      | S k => exec_all rest s ret k
      | 0 =>
          match exec st s ret with
          | (Continue, s', ret') => exec_all rest s' ret' 0
          | (ReturnNow, s', ret') => (Returns ret', s')
          | (Skip n, s', ret') => exec_all rest s' ret' n
          | (Panic, s', _) => (Panics, s')
          end
      end
  end.

(** A goroutine: it has not taken [mu] yet; it holds [mu] and has [cd]
    left to run; it panicked and its deferred [Unlock] is still to run; it
    is back from the call. *)
Inductive thread : Type :=
  | Waiting (c : call)
  | Locked (c : call) (cd : list stmt) (skip : nat) (ret : option ioerror)
  | Panicking (c : call)
  | Finished (c : call) (r : outcome (option ioerror)).

Definition callOf (t : thread) : call :=
  match t with
  | Waiting c | Locked c _ _ _ | Panicking c | Finished c _ => c
  end.

Definition active (t : thread) : bool :=
  match t with
  | Locked _ _ _ _ | Panicking _ => true
  | _ => false
  end.

Definition finishedCall (t : thread) : option call :=
  match t with
  | Finished c _ => Some c
  | _ => None
  end.

(** One step of a goroutine on the shared state and the mutex; [None]
    when it cannot step ([Lock] on a held mutex, or back from the call). *)
Definition tstep (t : thread) (s : world) (mu : bool)
    : option (thread * world * bool) :=
  match t with
  | Waiting c =>
      if negb (guard c) then Some (Finished c (Returns None), s, mu)
      else if mu then None
      else Some (Locked c (code c) 0 None, s, true)
  | Locked c [] _ ret => Some (Finished c (Returns ret), s, false)
  | Locked c (st :: rest) (S k) ret => Some (Locked c rest k ret, s, mu)
  | Locked c (st :: rest) 0 ret =>
      match exec st s ret with
      | (Continue, s', ret') => Some (Locked c rest 0 ret', s', mu)
      | (ReturnNow, s', ret') => Some (Locked c [] 0 ret', s', mu)
      | (Skip n, s', ret') => Some (Locked c rest n ret', s', mu)
      | (Panic, s', _) =>
          Some (if deferred c then Panicking c else Finished c Panics, s', mu)
      end
  | Panicking c => Some (Finished c Panics, s, false)
  | Finished _ _ => None
  end.

(** The process: the logger and the sinks, the mutex, the goroutines. *)
Record machine : Type := Machine {
  shared : world;
  mu : bool;
  pool : list thread;
}.

(** Goroutine [i] takes a step. *)
Definition mstep (i : nat) (m : machine) : option machine :=
  t ← pool m !! i;
  '(t', s', mu') ← tstep t (shared m) (mu m);
  Some {| shared := s'; mu := mu'; pool := <[i := t']> (pool m) |}.

(** The goroutines are about to make the calls [cs] on the state [s0]. *)
Definition boot (s0 : world) (cs : list call) : machine :=
  {| shared := s0; mu := false; pool := Waiting <$> cs |}.

(** [m'] is reached from [m] by [n] steps of goroutines, in any order. *)
Inductive msteps : nat → machine → machine → Prop :=
  | msteps_refl m : msteps 0 m m
  | msteps_step n m i m' m'' :
      msteps n m m' → mstep i m' = Some m'' → msteps (S n) m m''.

(** The schedule [ix]: the goroutines step in this order; [None] when one
    of them cannot step at its turn. *)
Fixpoint sched (ix : list nat) (m : machine) : option machine :=
  match ix with
  | [] => Some m
  | i :: ix' => m' ← mstep i m; sched ix' m'
  end.

(** Every goroutine is back from its call. *)
Definition quiescent (m : machine) : Prop :=
  ∀ t, t ∈ pool m → finishedCall t ≠ None.

(** The steps a goroutine has left at most. *)
Definition weight (t : thread) : nat :=
  match t with
  | Waiting c => length (code c) + 3
  | Locked _ cd _ _ => length cd + 2
  | Panicking _ => 1
  | Finished _ _ => 0
  end.

Definition total (f : thread → nat) (ts : list thread) : nat :=
  sum_list (f <$> ts).

(** What an active goroutine has left to run leads to the result and the
    state of its call run alone on [base]. *)
Definition mid (t : thread) (sh base : world) : Prop :=
  match t with
  | Locked c cd skip ret =>
      exec_all cd sh ret skip = (result c base, step base c)
  | Panicking c => result c base = Panics ∧ sh = step base c
  | _ => False
  end.

(** The machine is in the middle of a serial run of the calls [cs] on
    [s0]: the calls that are over, in some order [hist], ran one after the
    other; with the mutex free the shared state is the state after them;
    with the mutex held one goroutine, the only active one, is part way
    through its call on that state. *)
Definition serial (s0 : world) (cs : list call) (m : machine) : Prop :=
  callOf <$> pool m = cs ∧
  ∃ hist, hist ≡ₚ omap finishedCall (pool m) ∧
    if mu m then
      ∃ i t, pool m !! i = Some t ∧ mid t (shared m) (run hist s0) ∧
             ∀ j u, pool m !! j = Some u → active u = true → j = i
    else
      shared m = run hist s0 ∧ ∀ j u, pool m !! j = Some u → active u = false.

End Concurrent.

(** * Instances of the library parameters, for running the code *)

Module Sample.

(** Literal patterns: a pattern with an opening parenthesis does not
    compile; any other pattern matches the strings it occurs in. *)
Definition Compile (pat : string) : string + string :=
  if Contains pat "(" then inr ("error parsing regexp: " +:+ pat) else inl pat.
Definition ReMatchString (re str : string) : bool := Contains str re.

(** A few Go types and values of them. *)
Inductive goType : Type := TInt | TString | TBool.

#[global] Instance goType_eq_dec : EqDecision goType.
Proof. solve_decision. Defined.

Inductive goValue : Type :=
  | VNil
  | VInt (n : Z)
  | VString (s : string)
  | VBool (b : bool).

Definition TypeOf (v : goValue) : option goType :=
  match v with
  | VNil => None
  | VInt _ => Some TInt
  | VString _ => Some TString
  | VBool _ => Some TBool
  end.

(** A sink that takes no byte: a closed file, a full disk. *)
Definition fullSink : Bufio.sink := Bufio.Sink [] (Some 0) false.

(** A name of 4096 bytes: its line does not fit the buffer. *)
Definition longName : string := string_of_list_ascii (replicate 4096 "a"%char).

(** The process after [StartTestLog] on the full sink and one record of
    [longName]: the buffer filled up, the flush failed, and the writer
    keeps the error. *)
Definition fullDisk : Logger.world :=
  Logger.run [Logger.CStart 0; Logger.COpen longName]
    (Logger.start {[0 := fullSink]}).

(** The process after its first [StartTestLog], on an empty file. *)
Definition started : Logger.world := Logger.StartTestLog 0 (Logger.start ∅).

(** The process after [StartTestLog] on an empty file and one record. *)
Definition oneRecord : Logger.world :=
  Logger.run [Logger.CStart 0; Logger.COpen "/tmp/x"] (Logger.start ∅).

(** Three goroutines call the logger after a start: the third takes the
    mutex first; the second, whose name is empty, returns while the third
    is writing; the first runs last. *)
Definition raceCalls : list Logger.call :=
  [Logger.COpen "/tmp/x"; Logger.CGetenv ""; Logger.CStat "/tmp/y"].
Definition raceSchedule : list nat :=
  [2; 2; 2; 1; 2; 2; 2; 2; 0; 0; 0; 0; 0; 0; 0].

(** A sink that takes [n] bytes and no more: a pipe that is closed early,
    a disk that fills up. *)
Definition roomFor (n : nat) : Bufio.sink := Bufio.Sink [] (Some n) false.

End Sample.

(** * Properties of the pattern cache *)

Module PatternCacheFacts.
Import PatternCache.
Section WithRegexp.

Context {Regexp Err : Type}.
Variable Compile : string → Regexp + Err.
Variable ReMatchString : Regexp → string → bool.

Local Abbreviation MatchString := (PatternCache.MatchString Compile ReMatchString).
Local Abbreviation reachable := (PatternCache.reachable Compile ReMatchString).
Local Abbreviation cache_ok := (PatternCache.cache_ok Compile).
Local Abbreviation compiled := (PatternCache.compiled Compile).
Local Abbreviation recompile := (PatternCache.recompile Compile ReMatchString).

Lemma MatchString_miss c pat str :
  matchRe c = None ∨ matchPat c ≠ pat →
  MatchString pat str c = recompile pat str.
Proof.
  intros Hmiss. unfold PatternCache.MatchString, PatternCache.recompile.
  assert (bool_decide (matchRe c = None) || negb (String.eqb (matchPat c) pat) = true)
    as ->.
  { destruct Hmiss as [Hnil | Hne].
    - by rewrite bool_decide_eq_true_2.
    - apply String.eqb_neq in Hne. rewrite Hne. apply orb_true_r. }
  cbn. by destruct (Compile pat).
Qed.

Lemma MatchString_hit c pat str re :
  matchRe c = Some re → matchPat c = pat →
  MatchString pat str c = (Returns (ReMatchString re str, None), c).
Proof.
  intros Hre Hpat. unfold PatternCache.MatchString.
  rewrite bool_decide_eq_false_2 by congruence.
  apply String.eqb_eq in Hpat. rewrite Hpat. cbn. by rewrite Hre.
Qed.

Lemma recompile_state pat str :
  (recompile pat str).2 = {| matchPat := pat; matchRe := compiled pat |}.
Proof. unfold PatternCache.recompile, PatternCache.compiled. by destruct (Compile pat). Qed.

Lemma MatchString_matchPat c pat str : matchPat (MatchString pat str c).2 = pat.
Proof.
  destruct (matchRe c) as [re|] eqn:Hre.
  - destruct (decide (matchPat c = pat)) as [Heq | Hne].
    + by rewrite (MatchString_hit c pat str re).
    + rewrite MatchString_miss by auto. by rewrite recompile_state.
  - rewrite MatchString_miss by auto. by rewrite recompile_state.
Qed.

Lemma cache_ok_init : cache_ok init.
Proof. intros re Hre. discriminate Hre. Qed.

Lemma cache_ok_MatchString c pat str :
  cache_ok c → cache_ok (MatchString pat str c).2.
Proof.
  intros Hok. destruct (matchRe c) as [re|] eqn:Hre.
  - destruct (decide (matchPat c = pat)) as [Heq | Hne].
    + by rewrite (MatchString_hit c pat str re).
    + rewrite MatchString_miss by auto. rewrite recompile_state.
      intros re'. unfold PatternCache.compiled. cbn.
      destruct (Compile pat); congruence.
  - rewrite MatchString_miss by auto. rewrite recompile_state.
    intros re'. unfold PatternCache.compiled. cbn.
    destruct (Compile pat); congruence.
Qed.

Lemma reachable_ok c : reachable c → cache_ok c.
Proof.
  induction 1 as [| pat str c _ IH].
  - apply cache_ok_init.
  - by apply cache_ok_MatchString.
Qed.

(** On a state of the package, a call acts as a compilation of its
    pattern, whether the cache is used or not. *)
Lemma MatchString_reachable c pat str :
  reachable c → MatchString pat str c = recompile pat str.
Proof.
  intros Hc. apply reachable_ok in Hc.
  destruct (matchRe c) as [re|] eqn:Hre; [|by apply MatchString_miss; auto].
  destruct (decide (matchPat c = pat)) as [Heq | Hne];
    [|by apply MatchString_miss; auto].
  rewrite (MatchString_hit c pat str re) by done.
  unfold PatternCache.recompile. specialize (Hc re Hre). rewrite Heq in Hc. rewrite Hc.
  destruct c as [p r]. cbn in *. by subst.
Qed.

(** C4.  On every state the package can be in: when no matcher is cached
    or the cached pattern differs from [pat], the call leaves [pat] and the
    result of compiling it in the two cache variables; when [pat] compiles
    to [re] (after a compilation in this call or as the cached matcher) the
    call returns [re.MatchString(str)] and a nil error and leaves [pat] and
    [re] in the cache; and a cached matcher that is used is the compilation
    of [pat] and the cache stays as it was. *)
Theorem MatchString_compiles_then_matches (c : cache) (pat str : string) :
  reachable c →
  (matchRe c = None ∨ matchPat c ≠ pat →
     (MatchString pat str c).2 = {| matchPat := pat; matchRe := compiled pat |}) ∧
  (∀ re, Compile pat = inl re →
     MatchString pat str c =
       (Returns (ReMatchString re str, None),
        {| matchPat := pat; matchRe := Some re |})) ∧
  (∀ re, matchRe c = Some re → matchPat c = pat →
     Compile pat = inl re ∧
     MatchString pat str c = (Returns (ReMatchString re str, None), c)).
Proof.
  intros Hc. split; [|split].
  - intros Hmiss. rewrite MatchString_miss by done. apply recompile_state.
  - intros re Hre. rewrite MatchString_reachable by done.
    unfold PatternCache.recompile. by rewrite Hre.
  - intros re Hre Hpat. split.
    + apply reachable_ok in Hc. rewrite <- Hpat. by apply Hc.
    + by apply MatchString_hit.
Qed.

(** C5.  On every state the package can be in, a call whose pattern does
    not compile returns [false] and the compilation error, whatever [str]
    is, and leaves the pattern with a nil matcher; the next call, for any
    pattern (the same one too), does not panic and compiles its pattern
    anew. *)
Theorem MatchString_compile_error (c : cache) (pat str : string) (e : Err) :
  reachable c →
  Compile pat = inr e →
  MatchString pat str c =
    (Returns (false, Some e), {| matchPat := pat; matchRe := None |}) ∧
  ∀ pat' str',
    MatchString pat' str' (MatchString pat str c).2 = recompile pat' str' ∧
    (MatchString pat' str' (MatchString pat str c).2).1 ≠ Panics.
Proof.
  intros Hc He.
  assert (MatchString pat str c =
    (Returns (false, Some e), {| matchPat := pat; matchRe := None |})) as Hfail.
  { rewrite MatchString_reachable by done. unfold PatternCache.recompile. by rewrite He. }
  split; [done|]. intros pat' str'. rewrite Hfail. cbn [snd].
  assert (MatchString pat' str' {| matchPat := pat; matchRe := None |} =
          recompile pat' str') as -> by (apply MatchString_miss; auto).
  split; [done|]. unfold PatternCache.recompile. by destruct (Compile pat').
Qed.

(** C6.  For patterns [P1 ≠ P2] and any cache contents: after a call with
    [P1] and then a call with [P2] the cache holds [P2] and what compiling
    [P2] gives, which is the cache a process that never asked for [P1] has
    after its call with [P2]; so every later call returns what it returns
    there. *)
Theorem MatchString_single_slot (c : cache) (P1 P2 str1 str2 : string) :
  P1 ≠ P2 →
  let c2 := (MatchString P2 str2 (MatchString P1 str1 c).2).2 in
  c2 = {| matchPat := P2; matchRe := compiled P2 |} ∧
  c2 = (MatchString P2 str2 init).2 ∧
  ∀ pat str, MatchString pat str c2 = MatchString pat str (MatchString P2 str2 init).2.
Proof.
  intros Hne c2.
  assert (c2 = {| matchPat := P2; matchRe := compiled P2 |}) as H2.
  { unfold c2. rewrite MatchString_miss.
    - apply recompile_state.
    - right. by rewrite MatchString_matchPat. }
  assert ((MatchString P2 str2 init).2 = {| matchPat := P2; matchRe := compiled P2 |})
    as H0.
  { rewrite MatchString_miss by (by left). apply recompile_state. }
  split; [done|]. split; [congruence|]. intros pat str. congruence.
Qed.

(** Whatever the two cache variables hold, [MatchString] does not call a
    method of a nil matcher: it returns. *)
Theorem MatchString_never_panics (c : cache) (pat str : string) :
  (MatchString pat str c).1 ≠ Panics.
Proof.
  destruct (matchRe c) as [re|] eqn:Hre.
  - destruct (decide (matchPat c = pat)) as [Heq | Hne].
    + by rewrite (MatchString_hit c pat str re).
    + rewrite MatchString_miss by auto. unfold PatternCache.recompile.
      by destruct (Compile pat).
  - rewrite MatchString_miss by auto. unfold PatternCache.recompile.
    by destruct (Compile pat).
Qed.

End WithRegexp.

(** The first call of a process, with a pattern that compiles. *)
Lemma MatchString_compiles_then_matches_witness :
  reachable Sample.Compile Sample.ReMatchString init ∧
  MatchString Sample.Compile Sample.ReMatchString "Foo" "TestFoo" init =
    (Returns (true, None), {| matchPat := "Foo"; matchRe := Some "Foo" |}).
Proof.
  split; [constructor|].
  pose proof (MatchString_compiles_then_matches Sample.Compile
                Sample.ReMatchString init "Foo" "TestFoo" (reachable_init _ _))
    as (_ & Hcompiled & _).
  apply (Hcompiled "Foo"). reflexivity.
Defined.

(** The first call of a process, with a pattern that does not compile. *)
Lemma MatchString_compile_error_witness :
  MatchString Sample.Compile Sample.ReMatchString "(" "x" init =
    (Returns (false, Some "error parsing regexp: ("),
     {| matchPat := "("; matchRe := None |}).
Proof.
  apply (MatchString_compile_error Sample.Compile Sample.ReMatchString
           init "(" "x" _ (reachable_init _ _) eq_refl).
Defined.

(** Two patterns, one after the other. *)
Lemma MatchString_single_slot_witness :
  (MatchString Sample.Compile Sample.ReMatchString "b" "abc"
     (MatchString Sample.Compile Sample.ReMatchString "a" "abc" init).2).2 =
  {| matchPat := "b"; matchRe := Some "b" |}.
Proof.
  apply (MatchString_single_slot Sample.Compile Sample.ReMatchString
           init "a" "b" "abc" "abc").
  discriminate.
Defined.

End PatternCacheFacts.

(** * Properties of the corpus check *)

Module CorpusFacts.
Import Corpus.
Section WithReflect.

Context {any rtype : Type} `{EqDecision rtype}.
Variable TypeOf : any → option rtype.

Local Abbreviation CheckCorpus := (Corpus.CheckCorpus TypeOf).
Local Abbreviation fillTypes := (Corpus.fillTypes TypeOf).

(** The first loop stores the type of every value, in order, and never
    leaves the slice it writes to. *)
Lemma fillTypes_spec (vals : list any) :
  ∀ (i : nat) (valsT : list (option rtype)),
    (i + length vals ≤ length valsT)%nat →
    fillTypes i vals valsT =
      Returns (take i valsT ++ (TypeOf <$> vals) ++ drop (i + length vals) valsT).
Proof.
  induction vals as [|v vals IH]; intros i valsT Hlen; cbn [Corpus.fillTypes length].
  - cbn. rewrite Nat.add_0_r. by rewrite take_drop.
  - cbn [length] in Hlen. unfold store.
    rewrite decide_True by lia. cbn.
    rewrite IH by (rewrite length_insert; lia).
    f_equal. rewrite drop_insert_lt by lia.
    replace (S i + length vals) with (i + S (length vals)) by lia.
    rewrite (take_S_r _ i (TypeOf v))
      by (apply list_lookup_insert_eq; lia).
    rewrite take_insert_ge by lia.
    by rewrite <- app_assoc.
Qed.

Lemma fillTypes_all (vals : list any) :
  fillTypes 0 vals (replicate (length vals) None) = Returns (TypeOf <$> vals).
Proof.
  rewrite fillTypes_spec by (rewrite length_replicate; lia).
  rewrite take_0, drop_ge by (rewrite length_replicate; lia).
  by rewrite app_nil_r.
Qed.

(** The second loop, from index [i] on, finds a difference exactly when the
    two slices differ from [i] on. *)
Lemma checkTypes_spec (k : nat) :
  ∀ (i : nat) (valsT types : list (option rtype)),
    length valsT = length types →
    i + k = length types →
    checkTypes (seq i k) valsT types =
      if decide (drop i valsT = drop i types) then Returns None
      else Returns (Some (Errorf typesFormat [ArgTypes valsT; ArgTypes types])).
Proof.
  induction k as [|k IH]; intros i valsT types Hlen Hik; cbn [seq checkTypes].
  - rewrite !drop_ge by lia. by rewrite decide_True.
  - destruct (lookup_lt_is_Some_2 valsT i) as [t Ht]; [lia|].
    destruct (lookup_lt_is_Some_2 types i) as [u Hu]; [lia|].
    unfold index. rewrite Ht, Hu. cbn.
    rewrite (drop_S _ _ _ Ht), (drop_S _ _ _ Hu).
    destruct (decide (t ≠ u)) as [Hne | Heq].
    + rewrite decide_False; [done|]. intros [=]. done.
    + apply dec_stable in Heq. subst u.
      rewrite IH by lia.
      destruct (decide (drop (S i) valsT = drop (S i) types)) as [Hd | Hd].
      * rewrite decide_True; [done|]. by rewrite Hd.
      * rewrite decide_False; [done|]. intros [=]. done.
Qed.

(** [CheckCorpus] as a function of the two lengths and the types of the
    values. *)
Lemma CheckCorpus_unfold (vals : list any) (types : list (option rtype)) :
  CheckCorpus vals types =
    if decide (length vals ≠ length types) then
      Returns (Some (Errorf countFormat
                       [ArgInt (length vals); ArgInt (length types)]))
    else if decide (TypeOf <$> vals = types) then Returns None
    else Returns (Some (Errorf typesFormat
                          [ArgTypes (TypeOf <$> vals); ArgTypes types])).
Proof.
  unfold Corpus.CheckCorpus.
  destruct (decide (length vals ≠ length types)) as [Hne | Heq]; [done|].
  apply dec_stable in Heq.
  rewrite fillTypes_all. cbn.
  rewrite (checkTypes_spec (length types) 0)
    by (rewrite ?length_fmap; lia).
  by rewrite !drop_0.
Qed.

(** C7.  [CheckCorpus] returns the count error, built from the two lengths,
    when the lengths differ; with equal lengths it returns the type error,
    built from the types of all values and all expected types, when the
    type of some value differs from the type expected at its position, and
    nil when none does.  It never panics. *)
Theorem CheckCorpus_errors (vals : list any) (types : list (option rtype)) :
  (length vals ≠ length types →
     CheckCorpus vals types =
       Returns (Some (Errorf countFormat
                        [ArgInt (length vals); ArgInt (length types)]))) ∧
  (length vals = length types →
   (∃ i v t, vals !! i = Some v ∧ types !! i = Some t ∧ TypeOf v ≠ t) →
     CheckCorpus vals types =
       Returns (Some (Errorf typesFormat
                        [ArgTypes (TypeOf <$> vals); ArgTypes types]))) ∧
  (length vals = length types →
   (∀ i v t, vals !! i = Some v → types !! i = Some t → TypeOf v = t) →
     CheckCorpus vals types = Returns None) ∧
  CheckCorpus vals types ≠ Panics.
Proof.
  rewrite CheckCorpus_unfold. repeat split.
  - intros Hne. by rewrite decide_True.
  - intros Hlen (i & v & t & Hv & Ht & Hvt).
    rewrite decide_False by lia. rewrite decide_False; [done|].
    intros Heq. apply Hvt.
    rewrite <- Heq, list_lookup_fmap, Hv in Ht. by injection Ht.
  - intros Hlen Hall.
    rewrite decide_False by lia. rewrite decide_True; [done|].
    apply list_eq. intros i. rewrite list_lookup_fmap.
    destruct (vals !! i) as [v|] eqn:Hv; cbn.
    + destruct (lookup_lt_is_Some_2 types i) as [t Ht].
      { rewrite <- Hlen. by eapply lookup_lt_Some. }
      rewrite Ht. f_equal. by eapply Hall.
    + symmetry. apply lookup_ge_None. rewrite <- Hlen.
      by apply lookup_ge_None.
  - repeat case_decide; discriminate.
Qed.

End WithReflect.

(** The three calls the specification lists. *)
Example CheckCorpus_int_string :
  Corpus.CheckCorpus Sample.TypeOf
    [Sample.VInt 1; Sample.VString "a"] [Some Sample.TInt; Some Sample.TString]
  = Returns None.
Proof. reflexivity. Qed.

Example CheckCorpus_too_few :
  Corpus.CheckCorpus Sample.TypeOf
    [Sample.VInt 1] [Some Sample.TInt; Some Sample.TString]
  = Returns (Some (Errorf countFormat [ArgInt 1; ArgInt 2])).
Proof. reflexivity. Qed.

Example CheckCorpus_int_int :
  Corpus.CheckCorpus Sample.TypeOf
    [Sample.VInt 1; Sample.VInt 2] [Some Sample.TInt; Some Sample.TString]
  = Returns (Some (Errorf typesFormat
      [ArgTypes [Some Sample.TInt; Some Sample.TInt];
       ArgTypes [Some Sample.TInt; Some Sample.TString]])).
Proof. reflexivity. Qed.

End CorpusFacts.

(** * Properties of the [bufio.Writer] model *)

Module BufioFacts.
Import Bufio.

#[local] Arguments sinkWrite : simpl never.
#[local] Arguments Flush : simpl never.

Lemma defaultBufSize_pos : 0 < defaultBufSize.
Proof. unfold defaultBufSize. lia. Qed.

Lemma writer_eta (b : writer) : {| wr := wr b; buf := buf b; err := err b |} = b.
Proof. by destruct b. Qed.

(** ** Sinks *)

Lemma pushed_refl (k : nat) (σ : sinks) : pushed k [] σ σ.
Proof.
  unfold pushed. rewrite app_nil_r. repeat split.
  destruct (room (σ !!! k)) as [r|]; cbn; [f_equal; lia | done].
Qed.

Lemma pushed_trans (k : nat) (p q : list ascii) (σ1 σ2 σ3 : sinks) :
  pushed k p σ1 σ2 → pushed k q σ2 σ3 → pushed k (p ++ q) σ1 σ3.
Proof.
  intros (Hw1 & Hr1 & Hs1 & Hf1) (Hw2 & Hr2 & Hs2 & Hf2).
  unfold pushed. repeat split.
  - by rewrite Hw2, Hw1, app_assoc.
  - rewrite Hr2, Hr1, length_app.
    destruct (room (σ1 !!! k)) as [r|]; cbn; [f_equal; lia | done].
  - by rewrite Hs2, Hs1.
  - intros j Hj. by rewrite Hf2, Hf1.
Qed.

(** A write the sink has room for takes every byte and returns no error. *)
Lemma sinkWrite_room (p : list ascii) (k : nat) (σ : sinks) :
  match room (σ !!! k) with
  | None => True
  | Some r => length p ≤ r
  end →
  ∃ σ', sinkWrite p k σ = (length p, None, σ') ∧ pushed k p σ σ'.
Proof.
  intros Hroom. unfold sinkWrite.
  set (n := match room (σ !!! k) with
            | None => length p
            | Some r => r `min` length p
            end).
  assert (n = length p) as Hn.
  { unfold n. destruct (room (σ !!! k)); lia. }
  rewrite Hn. rewrite decide_False by lia.
  eexists. split; [done|]. unfold pushed.
  rewrite lookup_total_insert_eq. cbn. rewrite firstn_all. repeat split.
  intros j Hj. by rewrite lookup_total_insert_ne.
Qed.

(** A failing write returns an error and takes a proper prefix. *)
Lemma sinkWrite_count (p : list ascii) (k : nat) (σ : sinks) :
  (sinkWrite p k σ).1.1 ≤ length p ∧
  ((sinkWrite p k σ).1.2 = None → (sinkWrite p k σ).1.1 = length p).
Proof.
  unfold sinkWrite. cbn [fst snd]. split.
  - destruct (room (σ !!! k)); lia.
  - case_decide; [done|]. intros _. destruct (room (σ !!! k)); lia.
Qed.

(** ** [Flush] *)

Lemma Flush_sticky (b : writer) (σ : sinks) (e : ioerror) :
  err b = Some e → Flush b σ = (Some e, b, σ).
Proof. intros He. unfold Flush. by rewrite He. Qed.

(** With room in the sink, [Flush] hands the whole buffer to the sink and
    leaves the writer empty and without error. *)
Lemma Flush_room (b : writer) (σ : sinks) :
  err b = None → roomy 0 b σ →
  ∃ σ', Flush b σ = (None, {| wr := wr b; buf := []; err := None |}, σ') ∧
        pushed (wr b) (buf b) σ σ'.
Proof.
  intros He Hroom. unfold Flush, Buffered. rewrite He.
  destruct (decide (length (buf b) = 0)) as [Hnil | Hne].
  - apply length_zero_iff_nil in Hnil. exists σ. split.
    + f_equal. f_equal. rewrite <- (writer_eta b) at 1. by rewrite Hnil, He.
    + rewrite Hnil. apply pushed_refl.
  - destruct (sinkWrite_room (buf b) (wr b) σ) as (σ' & Hw & Hp).
    { unfold roomy in Hroom. destruct (room (σ !!! wr b)); [lia | done]. }
    rewrite Hw. rewrite decide_False by lia. by exists σ'.
Qed.

(** [Flush] leaves the writer on its sink, with an error exactly when it
    returns one, and with an empty buffer when it returns none. *)
Lemma Flush_result (b : writer) (σ : sinks) :
  err b = None →
  wr (Flush b σ).1.2 = wr b ∧
  err (Flush b σ).1.2 = (Flush b σ).1.1 ∧
  ((Flush b σ).1.1 = None → buf (Flush b σ).1.2 = []).
Proof.
  intros He. unfold Flush, Buffered. rewrite He.
  destruct (decide (length (buf b) = 0)) as [Hnil | Hne]; cbn.
  - repeat split; [done|]. intros _. by apply length_zero_iff_nil.
  - destruct (sinkWrite (buf b) (wr b) σ) as [[n e] σ'].
    destruct (decide (n < length (buf b) ∧ e = None)); cbn.
    + repeat split; discriminate.
    + destruct e; cbn; repeat split; done.
Qed.

(** ** [WriteByte] *)

Lemma WriteByte_sticky (c : ascii) (b : writer) (σ : sinks) (e : ioerror) :
  err b = Some e → WriteByte c (b, σ) = (b, σ).
Proof. intros He. unfold WriteByte. by rewrite He. Qed.

Lemma WriteByte_room (c : ascii) (b : writer) (σ : sinks) :
  err b = None → roomy 1 b σ → wrote [c] (b, σ) (WriteByte c (b, σ)).
Proof.
  intros He Hroom. unfold WriteByte. rewrite He.
  destruct (decide (Available b ≤ 0)) as [Hfull | Hfree].
  - destruct (Flush_room b σ) as (σ' & HF & Hp); [done| |].
    { unfold roomy in *. destruct (room (σ !!! wr b)); [lia | done]. }
    rewrite HF. unfold wrote. cbn. repeat split.
    exists (buf b). split; [done|]. done.
  - unfold wrote. cbn. repeat split; [done|].
    exists []. split; [apply pushed_refl | done].
Qed.

(** ** Taking bytes without an error *)

Lemma wrote_trans (p q : list ascii) (st1 st2 st3 : writer * sinks) :
  wrote p st1 st2 → wrote q st2 st3 → wrote (p ++ q) st1 st3.
Proof.
  intros (He2 & Hw2 & f1 & Hp1 & Hb1) (He3 & Hw3 & f2 & Hp2 & Hb2).
  unfold wrote. repeat split; [done | congruence |].
  exists (f1 ++ f2). split.
  - rewrite Hw2 in Hp2. by eapply pushed_trans.
  - by rewrite <- app_assoc, Hb2, !app_assoc, Hb1.
Qed.

Lemma wrote_roomy (p : list ascii) (m : nat) (st st' : writer * sinks) :
  wrote p st st' → roomy (length p + m) st.1 st.2 → roomy m st'.1 st'.2.
Proof.
  intros (_ & Hw & f & (_ & Hr & _ & _) & Hb) Hroom.
  unfold roomy in *. rewrite Hw, Hr.
  apply (f_equal length) in Hb. rewrite !length_app in Hb.
  destruct (room (st.2 !!! wr st.1)) as [r|]; cbn; [lia | done].
Qed.


Lemma wrote_frame (p : list ascii) (st st' : writer * sinks) (j : nat) :
  wrote p st st' → j ≠ wr st.1 → st'.2 !!! j = st.2 !!! j.
Proof. intros (_ & _ & f & (_ & _ & _ & Hf) & _) Hj. by apply Hf. Qed.

(** ** [WriteString] *)

Lemma WriteString_loop_done (fuel : nat) (s : list ascii) (b : writer) (σ : sinks) :
  ¬ (Available b < length s ∧ err b = None) →
  WriteString_loop fuel s b σ =
    match err b with
    | Some _ => Some (b, σ)
    | None => Some ((copyIn s b).2, σ)
    end.
Proof.
  intros Hdone. destruct fuel; cbn [WriteString_loop]; by rewrite decide_False.
Qed.

Lemma WriteString_loop_step (fuel : nat) (s : list ascii) (b : writer) (σ : sinks) :
  Available b < length s → err b = None →
  WriteString_loop (S fuel) s b σ =
    if bool_decide (Buffered b = 0) && stringWriter (σ !!! wr b) then
      let '(n, e, σ') := sinkWrite s (wr b) σ in
      WriteString_loop fuel (drop n s)
        {| wr := wr b; buf := buf b; err := e |} σ'
    else
      let '(n, b1) := copyIn s b in
      let '(_, b2, σ2) := Flush b1 σ in
      WriteString_loop fuel (drop n s) b2 σ2.
Proof. intros Hlen He. cbn [WriteString_loop]. by rewrite decide_True. Qed.

Lemma rounds_after_flush (s : list ascii) (b b2 : writer) (fuel : nat) :
  Available b < length s → buf b2 = [] → rounds s b < S fuel →
  rounds (drop (Available b `min` length s) s) b2 < fuel.
Proof.
  intros Hlen Hnil Hfuel. unfold rounds, Available in *.
  rewrite Hnil, length_drop. cbn [length].
  pose proof defaultBufSize_pos.
  rewrite (decide_False (P := defaultBufSize - 0 = 0)) by lia.
  case_decide; lia.
Qed.

(** The loop ends: [rounds s b] rounds are enough, whatever the sink does. *)
Lemma WriteString_loop_total (fuel : nat) :
  ∀ (s : list ascii) (b : writer) (σ : sinks),
    rounds s b < fuel → is_Some (WriteString_loop fuel s b σ).
Proof.
  induction fuel as [|fuel IH]; intros s b σ Hfuel; [lia|].
  destruct (decide (Available b < length s ∧ err b = None)) as [[Hlen He]|Hdone].
  2: { rewrite WriteString_loop_done by done. destruct (err b); eauto. }
  rewrite WriteString_loop_step by done.
  destruct (bool_decide (Buffered b = 0) && stringWriter (σ !!! wr b)).
  - destruct (sinkWrite s (wr b) σ) as [[n e] σ'] eqn:Hw.
    pose proof (sinkWrite_count s (wr b) σ) as [_ Hn]. rewrite Hw in Hn.
    cbn [fst snd] in Hn. destruct e as [e|].
    + rewrite WriteString_loop_done; cbn; [eauto|]. by intros [_ ?].
    + rewrite Hn, drop_all by done.
      rewrite WriteString_loop_done; cbn; [eauto|]. intros [? _]. lia.
  - unfold copyIn.
    set (b1 := {| wr := wr b; buf := buf b ++ take (Available b `min` length s) s;
                  err := err b |}).
    destruct (Flush_result b1 σ He) as (_ & Herr & Hbuf).
    destruct (Flush b1 σ) as [[e b2] σ2]. cbn [fst snd] in *.
    destruct e as [e|].
    + rewrite WriteString_loop_done; rewrite Herr; [eauto|]. by intros [_ ?].
    + apply IH. apply (rounds_after_flush s b); auto.
Qed.

(** With room in the sink the loop takes all of [s]. *)
Lemma WriteString_loop_room (fuel : nat) :
  ∀ (s : list ascii) (b : writer) (σ : sinks),
    err b = None → roomy (length s) b σ → rounds s b < fuel →
    ∃ st', WriteString_loop fuel s b σ = Some st' ∧ wrote s (b, σ) st'.
Proof.
  induction fuel as [|fuel IH]; intros s b σ He Hroom Hfuel; [lia|].
  destruct (decide (Available b < length s ∧ err b = None)) as [[Hlen _]|Hdone].
  2: { rewrite WriteString_loop_done by done. rewrite He.
       assert (length s ≤ Available b) as Hfit.
       { destruct (decide (Available b < length s)); [by destruct Hdone | lia]. }
       eexists. split; [done|]. unfold wrote, copyIn. cbn [fst snd wr buf err].
       split; [done|]. split; [done|]. exists []. split; [apply pushed_refl|].
       rewrite app_nil_l. f_equal. apply firstn_all2. lia. }
  rewrite WriteString_loop_step by done.
  destruct (bool_decide (Buffered b = 0) && stringWriter (σ !!! wr b)) eqn:Hfast.
  - apply andb_true_iff in Hfast as [Hnil _].
    apply bool_decide_eq_true in Hnil. apply length_zero_iff_nil in Hnil.
    destruct (sinkWrite_room s (wr b) σ) as (σ' & Hw & Hp).
    { unfold roomy in Hroom. rewrite Hnil in Hroom.
      destruct (room (σ !!! wr b)); [cbn in Hroom; lia | done]. }
    rewrite Hw, drop_all.
    rewrite WriteString_loop_done by (cbn; intros [? _]; lia).
    cbn. eexists. split; [done|]. unfold wrote. cbn.
    split; [done|]. split; [done|]. exists s. split; [done|].
    by rewrite Hnil, take_nil, app_nil_r.
  - clear Hfast. unfold copyIn.
    set (n := Available b `min` length s).
    set (b1 := {| wr := wr b; buf := buf b ++ take n s; err := err b |}).
    destruct (Flush_room b1 σ) as (σ' & HF & Hp); [done| |].
    { unfold roomy in *. cbn. rewrite length_app, length_take.
      destruct (room (σ !!! wr b)); [lia | done]. }
    rewrite HF. subst b1. cbn [wr buf err] in *.
    destruct (IH (drop n s) {| wr := wr b; buf := []; err := None |} σ')
      as (st' & Hloop & Hwrote); [done | | |].
    { destruct Hp as (_ & Hr & _). unfold roomy in *. cbn [wr buf].
      rewrite Hr.
      rewrite length_drop, length_app, length_take.
      destruct (room (σ !!! wr b)); cbn; [lia | done]. }
    { by apply (rounds_after_flush s b). }
    exists st'. split; [done|].
    destruct Hwrote as (He' & Hw' & f & Hp' & Hb'). cbn in *.
    unfold wrote. cbn. split; [done|]. split; [done|].
    exists ((buf b ++ take n s) ++ f). split.
    + by eapply pushed_trans.
    + by rewrite <- !app_assoc, Hb', take_drop.
Qed.

Lemma rounds_bound (s : list ascii) (b : writer) : rounds s b < 2 * length s + 2.
Proof. unfold rounds. case_decide; lia. Qed.

(** [WriteString] is the result of its loop: the bound on the rounds is
    never reached. *)
Lemma WriteString_total (s : string) (st : writer * sinks) :
  WriteString_loop (2 * length (list_ascii_of_string s) + 2)
    (list_ascii_of_string s) st.1 st.2 = Some (WriteString s st).
Proof.
  unfold WriteString.
  destruct (WriteString_loop_total _ (list_ascii_of_string s) st.1 st.2
              (rounds_bound _ _)) as [st' Hst'].
  by rewrite Hst'.
Qed.

Lemma WriteString_sticky (s : string) (b : writer) (σ : sinks) (e : ioerror) :
  err b = Some e → WriteString s (b, σ) = (b, σ).
Proof.
  intros He. unfold WriteString. cbn [fst snd].
  rewrite WriteString_loop_done by (intros [_ ?]; congruence).
  by rewrite He.
Qed.

Lemma WriteString_room (s : string) (b : writer) (σ : sinks) :
  err b = None → roomy (length (list_ascii_of_string s)) b σ →
  wrote (list_ascii_of_string s) (b, σ) (WriteString s (b, σ)).
Proof.
  intros He Hroom.
  destruct (WriteString_loop_room _ (list_ascii_of_string s) b σ He Hroom
              (rounds_bound _ _)) as (st' & Hloop & Hwrote).
  pose proof (WriteString_total s (b, σ)) as Htotal. cbn [fst snd] in Htotal.
  congruence.
Qed.

(** A byte that fits the buffer is appended to it; the sinks stay. *)
Lemma WriteByte_fits (c : ascii) (b : writer) (σ : sinks) :
  err b = None → fits 1 b →
  WriteByte c (b, σ) = ({| wr := wr b; buf := buf b ++ [c]; err := None |}, σ).
Proof.
  intros He Hfit. unfold fits in Hfit. unfold WriteByte, Available. rewrite He.
  rewrite decide_False by lia. by rewrite He.
Qed.

(** A string that fits the buffer is appended to it; the sinks stay. *)
Lemma WriteString_fits (s : string) (b : writer) (σ : sinks) :
  err b = None → fits (length (list_ascii_of_string s)) b →
  WriteString s (b, σ) =
    ({| wr := wr b; buf := buf b ++ list_ascii_of_string s; err := None |}, σ).
Proof.
  intros He Hfit. unfold fits in Hfit. unfold WriteString. cbn [fst snd].
  rewrite WriteString_loop_done by (unfold Available; intros [? _]; lia).
  rewrite He. unfold copyIn, Available. cbn [snd].
  rewrite firstn_all2 by lia. by rewrite He.
Qed.

(** ** What a writer is given, whatever its sink does *)

(** A [Write] appends the bytes it took to the sink, and changes no other
    sink. *)
Lemma sinkWrite_pushed (p : list ascii) (k : nat) (σ : sinks) :
  pushed k (take (sinkWrite p k σ).1.1 p) σ (sinkWrite p k σ).2.
Proof.
  pose proof (sinkWrite_count p k σ) as [Hn _]. revert Hn.
  unfold sinkWrite, pushed. cbn [fst snd]. intros Hn.
  rewrite lookup_total_insert_eq. cbn [written room stringWriter].
  rewrite length_take. split; [done|]. split.
  - destruct (room (σ !!! k)) as [r|]; cbn; [f_equal; lia | done].
  - split; [done|]. intros j Hj. by rewrite lookup_total_insert_ne.
Qed.

Lemma gave_refl (st : writer * sinks) : gave [] st st.
Proof.
  split; [done|]. split; [done|]. exists []. split; [apply pushed_refl|].
  destruct (err st.1); [apply prefix_nil | by rewrite app_nil_r].
Qed.

Lemma gave_trans (p q : list ascii) (st1 st2 st3 : writer * sinks) :
  gave p st1 st2 → gave q st2 st3 → gave (p ++ q) st1 st3.
Proof.
  intros (Hw2 & Hs2 & f1 & Hp1 & Hb1) (Hw3 & Hs3 & f2 & Hp2 & Hb2).
  split; [congruence|]. split.
  { intros He. rewrite (Hs2 He) in *. by apply Hs3. }
  destruct (err st2.1) as [e|] eqn:He2.
  - rewrite Hs3 by done. exists f1. split; [done|]. rewrite He2.
    rewrite app_assoc. by apply prefix_app_r.
  - exists (f1 ++ f2). split.
    { rewrite Hw2 in Hp2. by eapply pushed_trans. }
    destruct (err st3.1).
    + rewrite app_assoc, <- Hb1, <- app_assoc. by apply prefix_app.
    + by rewrite <- app_assoc, Hb2, !app_assoc, Hb1.
Qed.

(** A writer with an error takes nothing of what it is given. *)
Lemma gave_sticky (p : list ascii) (b : writer) (σ : sinks) :
  err b ≠ None → gave p (b, σ) (b, σ).
Proof.
  intros He. split; [done|]. split; [done|]. exists [].
  split; [apply pushed_refl|]. cbn [fst].
  destruct (err b); [apply prefix_nil | done].
Qed.

(** Bytes that go to the buffer are taken as they are. *)
Lemma gave_buffered (p : list ascii) (b : writer) (σ : sinks) :
  err b = None →
  gave p (b, σ) ({| wr := wr b; buf := buf b ++ p; err := err b |}, σ).
Proof.
  intros He. split; [done|]. split; [cbn [fst]; congruence|]. exists [].
  split; [apply pushed_refl|]. cbn [fst buf err]. by rewrite He.
Qed.

(** What went to the sink is a prefix of what the writer held and was
    given, and all of it but the buffer when the writer has no error. *)
Lemma gave_prefix (p : list ascii) (st st' : writer * sinks) :
  gave p st st' →
  ∃ flushed, pushed (wr st.1) flushed st.2 st'.2 ∧
             flushed `prefix_of` buf st.1 ++ p ∧
             (err st'.1 = None → flushed ++ buf st'.1 = buf st.1 ++ p).
Proof.
  intros (_ & _ & f & Hp & Hb). exists f. split; [done|].
  destruct (err st'.1); [done|]. split; [|done]. rewrite <- Hb.
  by apply prefix_app_r.
Qed.

(** The error [Flush] returns is the error the writer keeps. *)
Lemma Flush_err (b : writer) (σ : sinks) : err (Flush b σ).1.2 = (Flush b σ).1.1.
Proof.
  destruct (err b) as [e|] eqn:He.
  - by rewrite (Flush_sticky b σ e He).
  - by apply Flush_result.
Qed.

Lemma Flush_gave (b : writer) (σ : sinks) :
  gave [] (b, σ) ((Flush b σ).1.2, (Flush b σ).2).
Proof.
  destruct (err b) as [e|] eqn:He.
  { rewrite (Flush_sticky b σ e He). apply gave_refl. }
  unfold Flush, Buffered. rewrite He.
  destruct (decide (length (buf b) = 0)) as [Hnil | Hne]; [apply gave_refl|].
  pose proof (sinkWrite_pushed (buf b) (wr b) σ) as Hp.
  pose proof (sinkWrite_count (buf b) (wr b) σ) as [Hle Hall].
  destruct (sinkWrite (buf b) (wr b) σ) as [[n e] σ']. cbn [fst snd] in *.
  split; [by repeat case_match|].
  split; [intros Hc; cbn in Hc; congruence|].
  exists (take n (buf b)). split; [by repeat case_match|].
  rewrite app_nil_r.
  destruct (decide (n < length (buf b) ∧ e = None)) as [[Hlt ->]|Hfull]; cbn.
  - apply prefix_take.
  - destruct e as [e|]; cbn; [apply prefix_take|].
    rewrite app_nil_r. apply firstn_all2. specialize (Hall eq_refl). lia.
Qed.

Lemma WriteByte_gave (c : ascii) (st : writer * sinks) :
  gave [c] st (WriteByte c st).
Proof.
  destruct st as [b σ]. unfold WriteByte.
  destruct (err b) as [e|] eqn:He; [apply gave_sticky; congruence|].
  destruct (decide (Available b ≤ 0)) as [Hfull | Hfree].
  - pose proof (Flush_gave b σ) as Hg. pose proof (Flush_err b σ) as Herr.
    destruct (Flush b σ) as [[e b1] σ1]. cbn [fst snd] in *.
    rewrite <- (app_nil_l [c]). refine (gave_trans _ _ _ _ _ Hg _).
    destruct e as [e|]; [apply gave_sticky; congruence|].
    by apply gave_buffered.
  - cbn [fst]. by apply gave_buffered.
Qed.

Lemma WriteString_loop_gave (fuel : nat) :
  ∀ (s : list ascii) (b : writer) (σ : sinks) (st' : writer * sinks),
    WriteString_loop fuel s b σ = Some st' → gave s (b, σ) st'.
Proof.
  assert (∀ (s : list ascii) (b : writer) (σ : sinks) (st' : writer * sinks),
            ¬ (Available b < length s ∧ err b = None) →
            match err b with
            | Some _ => Some (b, σ)
            | None => Some ((copyIn s b).2, σ)
            end = Some st' → gave s (b, σ) st') as Hdone.
  { intros s b σ st' Hgo Hst'. destruct (err b) as [e|] eqn:He;
      injection Hst' as <-; [apply gave_sticky; congruence|].
    unfold copyIn. cbn [snd]. rewrite firstn_all2; [by apply gave_buffered|].
    destruct (decide (Available b < length s)); [by destruct Hgo | lia]. }
  induction fuel as [|fuel IH]; intros s b σ st' Hloop.
  { cbn [WriteString_loop] in Hloop. case_decide as Hgo; [done|].
    by apply Hdone. }
  destruct (decide (Available b < length s ∧ err b = None)) as [[Hlen He]|Hgo].
  2: { rewrite WriteString_loop_done in Hloop by done. by apply Hdone. }
  rewrite WriteString_loop_step in Hloop by done.
  destruct (bool_decide (Buffered b = 0) && stringWriter (σ !!! wr b)) eqn:Hfast.
  - apply andb_true_iff in Hfast as [Hnil _].
    apply bool_decide_eq_true in Hnil. apply length_zero_iff_nil in Hnil.
    pose proof (sinkWrite_pushed s (wr b) σ) as Hp.
    destruct (sinkWrite s (wr b) σ) as [[n e] σ']. cbn [fst snd] in Hp.
    apply IH in Hloop. rewrite <- (take_drop n s) at 1.
    refine (gave_trans _ _ _ _ _ _ Hloop).
    split; [done|]. split; [cbn [fst]; congruence|]. exists (take n s).
    split; [done|]. cbn [fst buf err]. rewrite Hnil.
    destruct e; [done | by rewrite app_nil_r].
  - clear Hfast. unfold copyIn in Hloop.
    set (n := Available b `min` length s) in *.
    pose proof (Flush_gave {| wr := wr b; buf := buf b ++ take n s; err := err b |} σ)
      as Hg.
    destruct (Flush {| wr := wr b; buf := buf b ++ take n s; err := err b |} σ)
      as [[e b2] σ2]. cbn [fst snd] in Hg.
    apply IH in Hloop. rewrite <- (take_drop n s) at 1.
    refine (gave_trans _ _ _ _ _ _ Hloop).
    rewrite <- (app_nil_r (take n s)).
    refine (gave_trans _ _ _ _ _ _ Hg). by apply gave_buffered.
Qed.

Lemma WriteString_gave (s : string) (st : writer * sinks) :
  gave (list_ascii_of_string s) st (WriteString s st).
Proof.
  pose proof (WriteString_total s st) as Htotal.
  apply WriteString_loop_gave in Htotal. by destruct st.
Qed.

End BufioFacts.

(** * Properties of the action logger *)

Module LoggerFacts.
Import Bufio BufioFacts Logger.

#[local] Arguments WriteString : simpl never.
#[local] Arguments WriteByte : simpl never.
#[local] Arguments Flush : simpl never.

Lemma world_eta (s : world) :
  {| log := {| w := w (log s); set := set (log s) |};
     files := files s; registered := registered s |} = s.
Proof. by destruct s as [[] ? ?]. Qed.

(** ** The guard of [add] *)

Lemma Contains_newline (name : string) :
  Contains name newline = true ↔ LF ∈ list_ascii_of_string name.
Proof.
  induction name as [|c name IH].
  - change (Contains "" newline) with false. cbn [list_ascii_of_string].
    split; [done|]. by intros ?%elem_of_nil.
  - change (Contains (String c name) newline) with
      ((if ascii_dec LF c then String.prefix "" name else false)
       || Contains name newline).
    cbn [list_ascii_of_string].
    rewrite orb_true_iff, IH, elem_of_cons.
    destruct (ascii_dec LF c) as [Heq | Hne].
    + split; [by left|]. intros _. left. by destruct name.
    + split; [intros [?|?]; [done | by right]|].
      intros [?|?]; [done | by right].
Qed.

Lemma add_guard (name : string) :
  Contains name newline || bool_decide (name = "") = true ↔
  name = "" ∨ LF ∈ list_ascii_of_string name.
Proof.
  rewrite orb_true_iff, Contains_newline, bool_decide_eq_true. tauto.
Qed.

Lemma add_dropped (op name : string) (s : world) :
  name = "" ∨ LF ∈ list_ascii_of_string name → add op name s = s.
Proof. intros Hbad%add_guard. unfold add. by rewrite Hbad. Qed.

Lemma add_no_writer (op name : string) (s : world) :
  w (log s) = None → add op name s = s.
Proof.
  intros Hw. unfold add. rewrite Hw.
  by destruct (Contains name newline || bool_decide (name = "")).
Qed.

(** What [add] does once past its two checks. *)
Lemma add_writes (op name : string) (s : world) (b : writer) :
  name ≠ "" → LF ∉ list_ascii_of_string name → w (log s) = Some b →
  add op name s =
    let st := WriteByte LF (WriteString name (WriteByte SP
                (WriteString op (b, files s)))) in
    {| log := {| w := Some st.1; set := set (log s) |};
       files := st.2; registered := registered s |}.
Proof.
  intros Hne Hnl Hw. unfold add.
  destruct (Contains name newline || bool_decide (name = "")) eqn:Hguard.
  - apply add_guard in Hguard as [?|?]; done.
  - by rewrite Hw.
Qed.

Lemma roomy_le (m n : nat) (b : writer) (σ : sinks) :
  m ≤ n → roomy n b σ → roomy m b σ.
Proof.
  intros Hmn. unfold roomy. destruct (room (σ !!! wr b)); [lia | done].
Qed.

(** With room in the sink the four writes take exactly the line. *)
Lemma add_line_room (op name : string) (b : writer) (σ : sinks) :
  err b = None → roomy (length (line op name)) b σ →
  wrote (line op name) (b, σ)
    (WriteByte LF (WriteString name (WriteByte SP (WriteString op (b, σ))))).
Proof.
  intros He Hroom. unfold line in *. rewrite !length_app in Hroom.
  cbn [length] in Hroom.
  pose proof (WriteString_room op b σ He) as H1.
  specialize (H1 ltac:(eapply roomy_le; [|exact Hroom]; lia)).
  pose proof (wrote_roomy _ _ _ _ H1 Hroom) as Hroom1.
  destruct (WriteString op (b, σ)) as [b1 σ1]. cbn [fst snd] in *.
  pose proof (WriteByte_room SP b1 σ1 (proj1 H1)) as H2.
  specialize (H2 ltac:(eapply roomy_le; [|exact Hroom1]; lia)).
  pose proof (wrote_roomy [SP] _ _ _ H2 Hroom1) as Hroom2.
  destruct (WriteByte SP (b1, σ1)) as [b2 σ2]. cbn [fst snd] in *.
  pose proof (WriteString_room name b2 σ2 (proj1 H2)) as H3.
  specialize (H3 ltac:(eapply roomy_le; [|exact Hroom2]; lia)).
  pose proof (wrote_roomy _ 1 _ _ H3 Hroom2) as Hroom3.
  destruct (WriteString name (b2, σ2)) as [b3 σ3]. cbn [fst snd] in *.
  pose proof (WriteByte_room LF b3 σ3 (proj1 H3) Hroom3) as H4.
  eapply wrote_trans; [exact H1|].
  eapply wrote_trans; [exact H2|].
  eapply wrote_trans; [exact H3|exact H4].
Qed.

(** A line that fits the buffer is appended to it by the four writes. *)
Lemma add_line_fits (op name : string) (b : writer) (σ : sinks) :
  err b = None → fits (length (line op name)) b →
  WriteByte LF (WriteString name (WriteByte SP (WriteString op (b, σ)))) =
    ({| wr := wr b; buf := buf b ++ line op name; err := None |}, σ).
Proof.
  intros He Hfit. unfold fits, line in *. rewrite !length_app in Hfit.
  cbn [length] in Hfit.
  rewrite WriteString_fits by (done || (unfold fits; lia)).
  rewrite WriteByte_fits
    by (done || (unfold fits; cbn [buf]; rewrite length_app; lia)).
  rewrite WriteString_fits
    by (done || (unfold fits; cbn [buf]; rewrite !length_app; cbn [length]; lia)).
  rewrite WriteByte_fits
    by (done || (unfold fits; cbn [buf]; rewrite !length_app; cbn [length]; lia)).
  cbn [wr buf]. by rewrite <- !app_assoc.
Qed.

(** [add] leaves the flag and the registry alone. *)
Lemma add_set (op name : string) (s : world) :
  set (log (add op name s)) = set (log s) ∧
  registered (add op name s) = registered s.
Proof.
  unfold add. destruct (Contains name newline || bool_decide (name = ""));
    [done|]. by destruct (w (log s)).
Qed.

Lemma add_sticky (op name : string) (s : world) (b : writer) :
  w (log s) = Some b → err b ≠ None → add op name s = s.
Proof.
  intros Hw He. unfold add.
  destruct (Contains name newline || bool_decide (name = "")); [done|].
  rewrite Hw. destruct (err b) as [e|] eqn:Heq; [|done].
  rewrite (WriteString_sticky op b _ e Heq), (WriteByte_sticky SP b _ e Heq).
  rewrite (WriteString_sticky name b _ e Heq), (WriteByte_sticky LF b _ e Heq).
  cbn [fst snd]. rewrite <- Hw. apply world_eta.
Qed.




(** ** [StartTestLog] *)

Lemma header_fits (k : nat) :
  fits (length (list_ascii_of_string header)) (NewWriter k).
Proof. unfold fits. vm_compute. lia. Qed.

(** The first start: flag, registration, and the header in the new buffer. *)
Lemma StartTestLog_first (k : nat) (s : world) :
  set (log s) = false →
  StartTestLog k s =
    {| log := {| w := Some {| wr := k; buf := list_ascii_of_string header;
                              err := None |};
                 set := true |};
       files := files s;
       registered := S (registered s) |}.
Proof.
  intros Hset. unfold StartTestLog. cbn [log set w files registered].
  rewrite Hset. cbn [negb SetLogger log set w files registered].
  rewrite WriteString_fits by (done || apply header_fits). done.
Qed.

(** A later start: a new empty writer and nothing else. *)
Lemma StartTestLog_again (k : nat) (s : world) :
  set (log s) = true →
  StartTestLog k s =
    {| log := {| w := Some (NewWriter k); set := true |};
       files := files s;
       registered := registered s |}.
Proof.
  intros Hset. unfold StartTestLog. cbn [log set w files registered].
  rewrite Hset. done.
Qed.

Lemma StopTestLog_set (s : world) :
  set (log (StopTestLog s).2) = set (log s) ∧
  registered (StopTestLog s).2 = registered s.
Proof.
  unfold StopTestLog. destruct (w (log s)) as [b|]; [|done].
  by destruct (Flush b (files s)) as [[e b'] σ].
Qed.

(** What a call does to the flag and to the registry. *)
Lemma step_set (s : world) (c : call) :
  set (log (step s c)) = set (log s) || isStart c ∧
  registered (step s c) =
    if isStart c && negb (set (log s)) then S (registered s) else registered s.
Proof.
  destruct c as [key|name|name|name|k|]; cbn [step isStart];
    rewrite ?orb_false_r; cbn [andb];
    try apply add_set; [|apply StopTestLog_set].
  destruct (set (log s)) eqn:Hset.
  - by rewrite StartTestLog_again.
  - by rewrite StartTestLog_first.
Qed.

Lemma run_snoc (cs : list call) (c : call) (s : world) :
  run (cs ++ [c]) s = step (run cs s) c.
Proof. unfold run. by rewrite foldl_app. Qed.



(** The header is written once: two runs of the harness leave one header
    in the file. *)
Example StartTestLog_twice :
  written (files (run [CStart 0; COpen "/tmp/x"; CStop;
                       CStart 0; CStat "/tmp/y"; CStop] (start ∅)) !!! 0) =
  list_ascii_of_string header ++ line "open" "/tmp/x" ++ line "stat" "/tmp/y".
Proof. vm_compute. reflexivity. Qed.

(** ** [StopTestLog] *)

Lemma StopTestLog_writer (s : world) (b : writer) :
  w (log s) = Some b →
  StopTestLog s =
    (Returns (Flush b (files s)).1.1,
     {| log := {| w := None; set := set (log s) |};
        files := (Flush b (files s)).2;
        registered := registered s |}).
Proof.
  intros Hw. unfold StopTestLog. rewrite Hw.
  by destruct (Flush b (files s)) as [[e b'] σ].
Qed.

Lemma StopTestLog_no_writer (s : world) :
  w (log s) = None → StopTestLog s = (Panics, s).
Proof. intros Hw. unfold StopTestLog. by rewrite Hw. Qed.

Lemma StopTestLog_clears (s : world) : w (log (StopTestLog s).2) = None.
Proof.
  destruct (w (log s)) as [b|] eqn:Hw.
  - by rewrite (StopTestLog_writer s b).
  - by rewrite StopTestLog_no_writer.
Qed.

(** Record calls made while no writer is installed change nothing. *)
Lemma run_records_dropped (cs : list call) (s : world) :
  w (log s) = None → forallb isRecord cs = true → run cs s = s.
Proof.
  intros Hw. induction cs as [|c cs IH]; [done|].
  cbn [forallb]. intros [Hc Hcs]%andb_true_iff.
  unfold run. cbn [foldl]. fold (run cs (step s c)).
  assert (step s c = s) as ->; [|by apply IH].
  destruct c; try discriminate Hc; cbn [step];
    by apply add_no_writer.
Qed.

(** [Flush] returns nil exactly when the writer has no error and its sink
    has room for the buffer. *)
Lemma Flush_nil (b : writer) (σ : sinks) :
  (Flush b σ).1.1 = None ↔ err b = None ∧ roomy 0 b σ.
Proof.
  split.
  - intros Hnil. unfold Flush in Hnil.
    destruct (err b) as [e|] eqn:He; [done|]. split; [done|].
    unfold roomy. destruct (room (σ !!! wr b)) as [r|] eqn:Hr; [|done].
    destruct (decide (Buffered b = 0)) as [Hz | Hnz]; [unfold Buffered in Hz; lia|].
    unfold sinkWrite in Hnil. rewrite Hr in Hnil.
    destruct (decide (r `min` length (buf b) < length (buf b))) as [Hlt|Hge];
      [|lia].
    rewrite decide_False in Hnil by (intros [_ ?]; done). done.
  - intros [He Hroom]. destruct (Flush_room b σ He Hroom) as (σ' & -> & _). done.
Qed.

(** C3.  With a writer [b] installed, [StopTestLog] returns what
    [b.Flush()] returns and leaves the sinks as the flush left them; the
    writer slot is nil afterwards whatever the flush returned.  The result
    is nil exactly when [b] had no error and its sink had room for the
    buffer, and then the sink took exactly the buffered bytes; a writer
    with an earlier error gives that error back and writes nothing.
    Record calls that follow change nothing, and the next [StartTestLog]
    installs a writer again. *)
Theorem StopTestLog_flushes (s : world) (b : writer) :
  w (log s) = Some b →
  (StopTestLog s).1 = Returns (Flush b (files s)).1.1 ∧
  files (StopTestLog s).2 = (Flush b (files s)).2 ∧
  w (log (StopTestLog s).2) = None ∧
  set (log (StopTestLog s).2) = set (log s) ∧
  ((StopTestLog s).1 = Returns None ↔ err b = None ∧ roomy 0 b (files s)) ∧
  (err b = None → roomy 0 b (files s) →
     pushed (wr b) (buf b) (files s) (files (StopTestLog s).2)) ∧
  (∀ e, err b = Some e →
     (StopTestLog s).1 = Returns (Some e) ∧ files (StopTestLog s).2 = files s) ∧
  (∀ cs, forallb isRecord cs = true →
     run cs (StopTestLog s).2 = (StopTestLog s).2) ∧
  (∀ k, w (log (StartTestLog k (StopTestLog s).2)) ≠ None).
Proof.
  intros Hw. rewrite (StopTestLog_writer s b Hw). cbn [fst snd log files w set].
  split; [done|]. split; [done|]. split; [done|]. split; [done|].
  split; [|split; [|split; [|split]]].
  - rewrite <- Flush_nil. split; [by intros [= ->] | by intros ->].
  - intros He Hroom. by destruct (Flush_room b (files s) He Hroom) as (σ' & -> & ?).
  - intros e He. by rewrite (Flush_sticky b (files s) e He).
  - intros cs Hcs. by apply run_records_dropped.
  - intros k. unfold StartTestLog. cbn [log set w files registered].
    by destruct (set (log s)).
Qed.

(** The stop that ends [Sample.oneRecord]: a nil result, and the header
    and the record in the file. *)
Lemma StopTestLog_flushes_witness :
  (StopTestLog Sample.oneRecord).1 = Returns None ∧
  written (files (StopTestLog Sample.oneRecord).2 !!! 0) =
    list_ascii_of_string header ++ line "open" "/tmp/x".
Proof.
  destruct (StopTestLog_flushes Sample.oneRecord
              {| wr := 0;
                 buf := list_ascii_of_string header ++ line "open" "/tmp/x";
                 err := None |} eq_refl)
    as (_ & _ & _ & _ & Hnil & Hpushed & _).
  split.
  - apply Hnil. split; [reflexivity | exact I].
  - destruct (Hpushed eq_refl I) as [Hwritten _]. exact Hwritten.
Defined.

(** A flush that fails: the error comes back and the slot is cleared. *)
Example StopTestLog_flush_error :
  (StopTestLog Sample.fullDisk).1 = Returns (Some (ErrWrite 0)) ∧
  w (log (StopTestLog Sample.fullDisk).2) = None ∧
  written (files (StopTestLog Sample.fullDisk).2 !!! 0) = [].
Proof. vm_compute. done. Qed.

(** C9.  [StopTestLog] with no writer installed panics and changes
    nothing: so it does before any [StartTestLog], and when called again
    right after a [StopTestLog].  It returns exactly when a writer is
    installed. *)
Theorem StopTestLog_nil_writer (s : world) :
  (w (log s) = None → StopTestLog s = (Panics, s)) ∧
  (∀ σ, StopTestLog (start σ) = (Panics, start σ)) ∧
  StopTestLog (StopTestLog s).2 = (Panics, (StopTestLog s).2) ∧
  (returned (StopTestLog s).1 ↔ w (log s) ≠ None).
Proof.
  split; [apply StopTestLog_no_writer|]. split; [done|]. split.
  - apply StopTestLog_no_writer, StopTestLog_clears.
  - unfold returned. destruct (w (log s)) as [b|] eqn:Hw.
    + rewrite (StopTestLog_writer s b Hw). cbn. split; [done | eauto].
    + rewrite (StopTestLog_no_writer s Hw). cbn.
      split; [by intros [e ?] | done].
Qed.




(** The record buffered before the second start, and the header with it,
    never reach the file. *)
Example StartTestLog_loses_record :
  written (files (run [CStart 0; COpen "/tmp/x"; CStart 0; CStop] (start ∅)) !!! 0)
  = [].
Proof. vm_compute. reflexivity. Qed.

(** ** A whole log *)

Lemma wrote_refl (st : writer * sinks) : err st.1 = None → wrote [] st st.
Proof.
  intros He. split; [done|]. split; [done|]. exists [].
  split; [apply pushed_refl | by rewrite app_nil_r].
Qed.

Lemma logging_roomy (k : nat) (p : list ascii) (σ : sinks) (s : world)
    (b : writer) (n : nat) :
  room (σ !!! k) = None → wrote p (NewWriter k, σ) (b, files s) →
  roomy n b (files s).
Proof.
  intros Hroom (_ & Hwr & f & (_ & Hr & _) & _).
  unfold NewWriter in *. cbn [fst snd wr] in *.
  unfold roomy. by rewrite Hwr, Hr, Hroom.
Qed.

Lemma logging_record (k : nat) (p : list ascii) (σ : sinks) (s : world)
    (c : call) :
  room (σ !!! k) = None → isRecord c = true →
  logging k p σ s → logging k (p ++ lineOf c) σ (step s c).
Proof.
  intros Hroom Hc (b & Hw & Hwrote).
  assert (∀ op name,
            logging k (p ++ (if Contains name newline || bool_decide (name = "")
                             then [] else line op name)) σ (add op name s))
    as Hadd.
  { intros op name.
    destruct (Contains name newline || bool_decide (name = "")) eqn:Hguard.
    - rewrite app_nil_r. rewrite add_dropped by by apply add_guard.
      by exists b.
    - assert (name ≠ "" ∧ LF ∉ list_ascii_of_string name) as [Hne Hnl].
      { split; intros Hbad; [assert (name = "" ∨ LF ∈ list_ascii_of_string name)
          as Hb by (by left) | assert (name = "" ∨ LF ∈ list_ascii_of_string name)
          as Hb by (by right)]; apply add_guard in Hb; congruence. }
      rewrite (add_writes op name s b) by done. cbn zeta.
      eexists. cbn [log w files]. split; [done|].
      rewrite <- surjective_pairing.
      eapply wrote_trans; [exact Hwrote|].
      apply add_line_room; [apply Hwrote|].
      by eapply logging_roomy. }
  destruct c; try discriminate Hc; cbn [step lineOf]; apply Hadd.
Qed.

Lemma logging_records (k : nat) (σ : sinks) (cs : list call) :
  room (σ !!! k) = None → forallb isRecord cs = true →
  ∀ (p : list ascii) (s : world),
    logging k p σ s → logging k (p ++ logged cs) σ (run cs s).
Proof.
  intros Hroom. induction cs as [|c cs IH]; intros Hcs p s Hs.
  - unfold logged. cbn. by rewrite app_nil_r.
  - cbn [forallb] in Hcs. apply andb_true_iff in Hcs as [Hc Hcs].
    unfold run, logged. cbn [foldl fmap list_fmap mjoin list_join].
    rewrite app_assoc. apply (IH Hcs). by apply logging_record.
Qed.

Lemma logging_start (k : nat) (σ : sinks) :
  logging k (list_ascii_of_string header) σ (StartTestLog k (start σ)).
Proof.
  rewrite StartTestLog_first by done. eexists. split; [done|].
  split; [done|]. split; [done|]. exists [].
  split; [apply pushed_refl | done].
Qed.

(** One run of the harness on a sink that never fails: after
    [StartTestLog], record calls and [StopTestLog], the sink holds what it
    held before, the header, and the lines of the records with a good
    name, in the order of the calls; [StopTestLog] returned nil, no other
    sink changed and no writer is installed. *)
Theorem whole_log (σ : sinks) (k : nat) (cs : list call) :
  room (σ !!! k) = None →
  forallb isRecord cs = true →
  let s := run cs (StartTestLog k (start σ)) in
  (StopTestLog s).1 = Returns None ∧
  written (files (StopTestLog s).2 !!! k) =
    written (σ !!! k) ++ list_ascii_of_string header ++ logged cs ∧
  (∀ j, j ≠ k → files (StopTestLog s).2 !!! j = σ !!! j) ∧
  w (log (StopTestLog s).2) = None.
Proof.
  intros Hroom Hcs s.
  destruct (logging_records k σ cs Hroom Hcs _ _ (logging_start k σ))
    as (b & Hw & Hwrote).
  fold s in Hw, Hwrote.
  pose proof (logging_roomy k _ σ s b 0 Hroom Hwrote) as Hb.
  destruct Hwrote as (He & Hwr & f & (Hwritten & _ & _ & Hframe) & Hbuf).
  unfold NewWriter in *. cbn [fst snd wr buf] in *.
  destruct (Flush_room b (files s) He Hb) as (σ' & HF & Hw' & _ & _ & Hframe').
  rewrite (StopTestLog_writer s b Hw), HF. cbn [fst snd files log w].
  split; [done|]. rewrite Hwr in *. split; [|split; [|done]].
  - by rewrite Hw', Hwritten, <- !app_assoc, Hbuf.
  - intros j Hj. by rewrite Hframe', Hframe.
Qed.

(** Three records, the second with an empty name. *)
Lemma whole_log_witness :
  written (files (run [CStart 0; CGetenv "HOME"; COpen ""; CChdir "/tmp"; CStop]
                    (start ∅)) !!! 0) =
  list_ascii_of_string header ++ line "getenv" "HOME" ++ line "chdir" "/tmp".
Proof.
  assert (room ((∅ : sinks) !!! 0) = None) as Hroom
    by (vm_compute; reflexivity).
  destruct (whole_log ∅ 0 [CGetenv "HOME"; COpen ""; CChdir "/tmp"]
              Hroom eq_refl) as (_ & Hwritten & _).
  exact Hwritten.
Defined.

(** ** A session on any sink *)

Lemma run_cons (c : call) (cs : list call) (s : world) :
  run (c :: cs) s = run cs (step s c).
Proof. done. Qed.

Lemma logged_cons (c : call) (cs : list call) :
  logged (c :: cs) = lineOf c ++ logged cs.
Proof. done. Qed.

Lemma plugged_plugged (slot slot' : option writer) (s : world) :
  plugged slot (plugged slot' s) = plugged slot s.
Proof. done. Qed.

Lemma plugged_same (s : world) : plugged (w (log s)) s = s.
Proof. apply world_eta. Qed.

(** [StartTestLog] on any state: the writer it installs holds the
    preamble. *)
Lemma StartTestLog_writer (k : nat) (s : world) :
  StartTestLog k s =
    {| log := {| w := Some {| wr := k; buf := preamble s; err := None |};
                 set := true |};
       files := files s;
       registered := if set (log s) then registered s else S (registered s) |}.
Proof.
  unfold preamble. destruct (set (log s)) eqn:Hset.
  - by rewrite StartTestLog_again.
  - by rewrite StartTestLog_first.
Qed.

Lemma lineOf_good (op name : string) :
  name ≠ "" → LF ∉ list_ascii_of_string name →
  (if Contains name newline || bool_decide (name = "") then []
   else line op name) = line op name.
Proof.
  intros Hne Hnl.
  destruct (Contains name newline || bool_decide (name = "")) eqn:Hguard; [|done].
  apply add_guard in Hguard as [?|?]; done.
Qed.

Lemma lineOf_bad (op name : string) :
  name = "" ∨ LF ∈ list_ascii_of_string name →
  (if Contains name newline || bool_decide (name = "") then []
   else line op name) = [].
Proof. intros Hbad%add_guard. by rewrite Hbad. Qed.

(** The four writes of [add] give the writer the line, whatever the sink
    does. *)
Lemma add_line_gave (op name : string) (st : writer * sinks) :
  gave (line op name) st
    (WriteByte LF (WriteString name (WriteByte SP (WriteString op st)))).
Proof.
  unfold line.
  eapply gave_trans; [apply WriteString_gave|].
  eapply gave_trans; [apply WriteByte_gave|].
  eapply gave_trans; [apply WriteString_gave|apply WriteByte_gave].
Qed.

(** A record call keeps the installed writer and gives it its line. *)
Lemma step_gave (c : call) (s : world) (b : writer) :
  isRecord c = true → w (log s) = Some b →
  ∃ b', w (log (step s c)) = Some b' ∧
        gave (lineOf c) (b, files s) (b', files (step s c)).
Proof.
  intros Hc Hw.
  assert (∀ op name, ∃ b', w (log (add op name s)) = Some b' ∧
            gave (if Contains name newline || bool_decide (name = "") then []
                  else line op name) (b, files s) (b', files (add op name s)))
    as Hadd.
  { intros op name.
    destruct (decide (name = "" ∨ LF ∈ list_ascii_of_string name)) as [Hbad|Hgood].
    - rewrite lineOf_bad, add_dropped by done. exists b. split; [done|].
      apply gave_refl.
    - assert (name ≠ "" ∧ LF ∉ list_ascii_of_string name) as [Hne Hnl] by tauto.
      rewrite lineOf_good, (add_writes op name s b) by done. cbn zeta.
      eexists. cbn [log w files]. split; [done|].
      rewrite <- surjective_pairing. apply add_line_gave. }
  destruct c; try discriminate Hc; cbn [step lineOf]; apply Hadd.
Qed.

(** Record calls keep the installed writer and give it their lines, in
    the order of the calls. *)
Lemma run_gave (cs : list call) :
  forallb isRecord cs = true →
  ∀ (s : world) (b : writer), w (log s) = Some b →
    ∃ b', w (log (run cs s)) = Some b' ∧
          gave (logged cs) (b, files s) (b', files (run cs s)).
Proof.
  induction cs as [|c cs IH]; intros Hcs s b Hw.
  - exists b. split; [done|]. apply gave_refl.
  - cbn [forallb] in Hcs. apply andb_true_iff in Hcs as [Hc Hcs].
    destruct (step_gave c s b Hc Hw) as (b1 & Hw1 & Hg1).
    destruct (IH Hcs (step s c) b1 Hw1) as (b2 & Hw2 & Hg2).
    exists b2. rewrite run_cons, logged_cons. split; [done|].
    by eapply gave_trans.
Qed.

(** A session up to its stop: the writer the start installed was given
    the preamble and the lines. *)
Lemma session_gave (s : world) (k : nat) (cs : list call) :
  forallb isRecord cs = true →
  ∃ b, w (log (run cs (StartTestLog k s))) = Some b ∧
       gave (preamble s ++ logged cs) (NewWriter k, files s)
         (b, files (run cs (StartTestLog k s))).
Proof.
  intros Hcs.
  destruct (run_gave cs Hcs (StartTestLog k s)
              {| wr := k; buf := preamble s; err := None |})
    as (b & Hw & Hg); [by rewrite StartTestLog_writer|].
  exists b. split; [done|]. refine (gave_trans _ _ _ _ _ _ Hg).
  rewrite StartTestLog_writer. cbn [files].
  rewrite <- (app_nil_l (preamble s)) at 2.
  by apply (gave_buffered _ (NewWriter k)).
Qed.

(** The stop of a session: the flush gives the writer nothing more, and
    the result is the error the flushed writer has. *)
Lemma StopTestLog_gave (s : world) (b : writer) :
  w (log s) = Some b →
  ∃ b', (StopTestLog s).1 = Returns (err b') ∧
        gave [] (b, files s) (b', files (StopTestLog s).2) ∧
        (err b' = None → buf b' = []).
Proof.
  intros Hw. rewrite (StopTestLog_writer s b Hw). cbn [fst snd files].
  exists (Flush b (files s)).1.2. rewrite Flush_err. split; [done|].
  split; [apply Flush_gave|]. intros He.
  destruct (err b) as [e|] eqn:Hb.
  - rewrite (Flush_sticky b _ e Hb) in He. cbn in He. congruence.
  - destruct (Flush_result b (files s) Hb) as (_ & _ & Hbuf).
    by apply Hbuf.
Qed.

(** A whole session: the writer that [StopTestLog] flushed was given the
    preamble and the lines, and holds nothing when the flush went well. *)
Lemma session_stop_gave (s : world) (k : nat) (cs : list call) :
  forallb isRecord cs = true →
  ∃ b', (StopTestLog (run cs (StartTestLog k s))).1 = Returns (err b') ∧
        gave (preamble s ++ logged cs) (NewWriter k, files s)
          (b', files (StopTestLog (run cs (StartTestLog k s))).2) ∧
        (err b' = None → buf b' = []).
Proof.
  intros Hcs. destruct (session_gave s k cs Hcs) as (b & Hw & Hg).
  destruct (StopTestLog_gave _ b Hw) as (b' & Hret & Hg' & Hbuf).
  exists b'. split; [done|]. split; [|done].
  rewrite <- (app_nil_r (preamble s ++ logged cs)). by eapply gave_trans.
Qed.

(** Whatever its sink does (it may fail, or take part of a write), a
    session leaves in the sink what the sink held followed by a beginning
    of the log: of the header, when this start is the first of the process,
    and the lines of the records with a good name, in call order.  So it
    is before [StopTestLog], when only full buffers have been flushed, and
    after it.  No other sink changes. *)
Theorem session_log_prefix (s : world) (k : nat) (cs : list call) :
  forallb isRecord cs = true →
  let s1 := run cs (StartTestLog k s) in
  let s2 := (StopTestLog s1).2 in
  ∃ q1 q2,
    written (files s1 !!! k) = written (files s !!! k) ++ q1 ∧
    written (files s2 !!! k) = written (files s !!! k) ++ q1 ++ q2 ∧
    q1 ++ q2 `prefix_of` preamble s ++ logged cs ∧
    ∀ j, j ≠ k → files s1 !!! j = files s !!! j ∧ files s2 !!! j = files s !!! j.
Proof.
  intros Hcs s1 s2.
  destruct (session_gave s k cs Hcs) as (b & Hw & Hg). fold s1 in Hw, Hg.
  destruct (StopTestLog_gave s1 b Hw) as (b' & _ & Hg' & _). fold s2 in Hg'.
  pose proof (gave_trans _ _ _ _ _ Hg Hg') as Hall.
  destruct Hg as (Hwr & _ & q1 & (Hw1 & _ & _ & Hf1) & _).
  destruct Hg' as (_ & _ & q2 & (Hw2 & _ & _ & Hf2) & _).
  apply gave_prefix in Hall as (q & (Hw12 & _) & Hpre & _).
  unfold NewWriter in *. cbn [fst snd wr buf] in *. rewrite Hwr in *.
  assert (q = q1 ++ q2) as ->.
  { rewrite Hw2, Hw1, <- app_assoc in Hw12. by apply app_inv_head in Hw12. }
  exists q1, q2. split; [done|]. split; [done|].
  split; [by rewrite app_nil_r in Hpre|].
  intros j Hj. split; [by apply Hf1|]. by rewrite Hf2, Hf1.
Qed.

(** A sink that takes five bytes gets a beginning of the header. *)
Lemma session_log_prefix_witness :
  written (files (StopTestLog (run [COpen "/tmp/x"]
            (StartTestLog 0 (start {[0 := Sample.roomFor 5]})))).2 !!! 0)
    `prefix_of` list_ascii_of_string header ++ line "open" "/tmp/x".
Proof.
  destruct (session_log_prefix (start {[0 := Sample.roomFor 5]}) 0
              [COpen "/tmp/x"] eq_refl)
    as (q1 & q2 & _ & Hstop & Hprefix & _).
  rewrite Hstop.
  assert (written (files (start {[0 := Sample.roomFor 5]}) !!! 0) = []) as ->
    by (vm_compute; reflexivity).
  assert (preamble (start {[0 := Sample.roomFor 5]}) ++ logged [COpen "/tmp/x"] =
          list_ascii_of_string header ++ line "open" "/tmp/x") as Hlog
    by (vm_compute; reflexivity).
  rewrite <- Hlog. exact Hprefix.
Defined.

(** After a [StopTestLog] that returned nil the sink holds the whole
    log. *)
Lemma session_nil_written (s : world) (k : nat) (cs : list call) :
  forallb isRecord cs = true →
  (StopTestLog (run cs (StartTestLog k s))).1 = Returns None →
  written (files (StopTestLog (run cs (StartTestLog k s))).2 !!! k) =
    written (files s !!! k) ++ preamble s ++ logged cs.
Proof.
  intros Hcs Hnil.
  destruct (session_stop_gave s k cs Hcs) as (b' & Hret & Hg & Hbuf).
  rewrite Hret in Hnil. injection Hnil as He.
  apply gave_prefix in Hg as (q & (Hw & _) & _ & Hq).
  specialize (Hq He). unfold NewWriter in *. cbn [fst snd wr buf] in *.
  rewrite (Hbuf He), app_nil_r in Hq. by rewrite Hw, Hq.
Qed.

(** A nil result of [StopTestLog] can be relied on, whatever the sink is:
    when the [StopTestLog] that ends a session returns nil, the sink holds
    what it held before the session, then the header if this start was the
    first of the process, then the line of every record with a good name,
    in call order, and nothing else; no other sink has changed, and no
    writer is installed. *)
Theorem StopTestLog_nil_whole_log (s : world) (k : nat) (cs : list call) :
  forallb isRecord cs = true →
  (StopTestLog (run cs (StartTestLog k s))).1 = Returns None →
  written (files (StopTestLog (run cs (StartTestLog k s))).2 !!! k) =
    written (files s !!! k) ++ preamble s ++ logged cs ∧
  (∀ j, j ≠ k →
     files (StopTestLog (run cs (StartTestLog k s))).2 !!! j = files s !!! j) ∧
  w (log (StopTestLog (run cs (StartTestLog k s))).2) = None.
Proof.
  intros Hcs Hnil. split; [by apply session_nil_written|].
  split; [|apply StopTestLog_clears].
  destruct (session_stop_gave s k cs Hcs)
    as (b' & _ & (_ & _ & f & (_ & _ & _ & Hframe) & _) & _).
  exact Hframe.
Qed.

(** One record on an empty file. *)
Lemma StopTestLog_nil_whole_log_witness :
  written (files (StopTestLog (run [COpen "/tmp/x"]
            (StartTestLog 0 (start ∅)))).2 !!! 0) =
  list_ascii_of_string header ++ line "open" "/tmp/x".
Proof.
  assert ((StopTestLog (run [COpen "/tmp/x"] (StartTestLog 0 (start ∅)))).1 =
          Returns None) as Hnil by (vm_compute; reflexivity).
  destruct (StopTestLog_nil_whole_log (start ∅) 0 [COpen "/tmp/x"] eq_refl Hnil)
    as (Hwritten & _).
  rewrite Hwritten. vm_compute. reflexivity.
Defined.

(** ** A session on a sink with room *)

(** With room in the sink for them, record calls give their lines to the
    writer without an error. *)
Lemma run_wrote (cs : list call) :
  forallb isRecord cs = true →
  ∀ (s : world) (b : writer),
    w (log s) = Some b → err b = None →
    roomy (length (logged cs)) b (files s) →
    ∃ b', w (log (run cs s)) = Some b' ∧
          wrote (logged cs) (b, files s) (b', files (run cs s)).
Proof.
  induction cs as [|c cs IH]; intros Hcs s b Hw He Hroom.
  - exists b. split; [done|]. by apply wrote_refl.
  - cbn [forallb] in Hcs. apply andb_true_iff in Hcs as [Hc Hcs].
    rewrite logged_cons, length_app in Hroom.
    assert (∃ b1, w (log (step s c)) = Some b1 ∧
                  wrote (lineOf c) (b, files s) (b1, files (step s c)))
      as (b1 & Hw1 & Hwrote1).
    { assert (∀ op name,
        roomy (length (if Contains name newline || bool_decide (name = "")
                       then [] else line op name)) b (files s) →
        ∃ b1, w (log (add op name s)) = Some b1 ∧
              wrote (if Contains name newline || bool_decide (name = "") then []
                     else line op name) (b, files s) (b1, files (add op name s)))
        as Hadd.
      { intros op name.
        destruct (decide (name = "" ∨ LF ∈ list_ascii_of_string name))
          as [Hbad|Hgood].
        - rewrite lineOf_bad, add_dropped by done. intros _. exists b.
          split; [done|]. by apply wrote_refl.
        - assert (name ≠ "" ∧ LF ∉ list_ascii_of_string name) as [Hne Hnl] by tauto.
          rewrite lineOf_good, (add_writes op name s b) by done. cbn zeta.
          intros Hline. eexists. cbn [log w files]. split; [done|].
          rewrite <- surjective_pairing. by apply add_line_room. }
      destruct c; try discriminate Hc; cbn [step lineOf] in *; apply Hadd;
        (eapply roomy_le; [|exact Hroom]); lia. }
    pose proof (wrote_roomy _ _ _ _ Hwrote1 Hroom) as Hroom1.
    destruct (IH Hcs (step s c) b1 Hw1 (proj1 Hwrote1) Hroom1)
      as (b2 & Hw2 & Hwrote2).
    exists b2. rewrite run_cons, logged_cons. split; [done|].
    by eapply wrote_trans.
Qed.

(** A session on a sink with room for the log: [StopTestLog] returns nil
    and the sink took the log. *)
Lemma session_room (s : world) (k : nat) (cs : list call) :
  forallb isRecord cs = true →
  roomy (length (preamble s ++ logged cs)) (NewWriter k) (files s) →
  (StopTestLog (run cs (StartTestLog k s))).1 = Returns None ∧
  pushed k (preamble s ++ logged cs) (files s)
    (files (StopTestLog (run cs (StartTestLog k s))).2).
Proof.
  intros Hcs Hroom.
  assert (w (log (StartTestLog k s)) =
            Some {| wr := k; buf := preamble s; err := None |} ∧
          files (StartTestLog k s) = files s) as [Hw0 Hf0]
    by (by rewrite StartTestLog_writer).
  destruct (run_wrote cs Hcs (StartTestLog k s) _ Hw0 eq_refl)
    as (b & Hw & Hwrote).
  { rewrite Hf0. unfold roomy, NewWriter in *. cbn [wr buf length] in *.
    rewrite length_app in Hroom. destruct (room (files s !!! k)); [lia | done]. }
  assert (roomy 0 b (files (run cs (StartTestLog k s)))) as Hb.
  { apply (wrote_roomy _ 0 _ _ Hwrote). cbn [fst snd]. rewrite Hf0, Nat.add_0_r.
    unfold roomy, NewWriter in *. cbn [wr buf length] in *.
    rewrite length_app in Hroom. destruct (room (files s !!! k)); [lia | done]. }
  destruct Hwrote as (He & Hwr & f & Hp & Hbuf). cbn [fst snd wr buf] in *.
  destruct (Flush_room b _ He Hb) as (σ' & HF & Hp').
  rewrite (StopTestLog_writer _ b Hw), HF. cbn [fst snd files].
  split; [done|]. rewrite Hf0 in Hp. rewrite Hwr in Hp'.
  rewrite <- Hbuf. by eapply pushed_trans.
Qed.

(** What a session needs of its sink is room for the log.  When the sink
    takes as many bytes as the header (if this start is the first of the
    process) and the lines of the records have, [StopTestLog] returns nil,
    the sink took exactly these bytes after those it held, its room went
    down by their number, and no other sink changed; the writer slot is
    nil and the one-time flag is set. *)
Theorem session_log_room (s : world) (k : nat) (cs : list call) :
  forallb isRecord cs = true →
  roomy (length (preamble s ++ logged cs)) (NewWriter k) (files s) →
  let s' := StopTestLog (run cs (StartTestLog k s)) in
  s'.1 = Returns None ∧
  pushed k (preamble s ++ logged cs) (files s) (files s'.2) ∧
  w (log s'.2) = None ∧
  set (log s'.2) = true.
Proof.
  intros Hcs Hroom s'. destruct (session_room s k cs Hcs Hroom) as [Hnil Hp].
  split; [done|]. split; [done|]. split; [apply StopTestLog_clears|].
  unfold s'. destruct (StopTestLog_set (run cs (StartTestLog k s))) as [-> _].
  clear. induction cs as [|c cs IH] using rev_ind.
  - by rewrite StartTestLog_writer.
  - rewrite run_snoc. destruct (step_set (run cs (StartTestLog k s)) c) as [-> _].
    by rewrite IH.
Qed.

(** A sink with room for the 23 bytes of the header and one record. *)
Lemma session_log_room_witness :
  (StopTestLog (run [COpen "/tmp/x"]
     (StartTestLog 0 (start {[0 := Sample.roomFor 23]})))).1 = Returns None.
Proof.
  assert (roomy (length (preamble (start {[0 := Sample.roomFor 23]}) ++
                         logged [COpen "/tmp/x"]))
            (NewWriter 0) (files (start {[0 := Sample.roomFor 23]}))) as Hroom.
  { unfold roomy.
    assert (room (files (start {[0 := Sample.roomFor 23]}) !!! wr (NewWriter 0)) =
            Some 23) as -> by (vm_compute; reflexivity).
    vm_compute. lia. }
  destruct (session_log_room (start {[0 := Sample.roomFor 23]}) 0
              [COpen "/tmp/x"] eq_refl Hroom) as (Hnil & _).
  exact Hnil.
Defined.

(** ** A log that fits the buffer *)

(** Lines that fit the buffer are appended to it, one after the other. *)
Lemma run_fits (cs : list call) :
  forallb isRecord cs = true →
  ∀ (s : world) (b : writer),
    w (log s) = Some b → err b = None → fits (length (logged cs)) b →
    run cs s =
      plugged (Some {| wr := wr b; buf := buf b ++ logged cs; err := None |}) s.
Proof.
  induction cs as [|c cs IH]; intros Hcs s b Hw He Hfit.
  - unfold logged. cbn. rewrite app_nil_r, <- He, writer_eta, <- Hw.
    symmetry. apply plugged_same.
  - cbn [forallb] in Hcs. apply andb_true_iff in Hcs as [Hc Hcs].
    rewrite logged_cons in *. unfold fits in Hfit. rewrite length_app in Hfit.
    assert (step s c =
              plugged (Some {| wr := wr b; buf := buf b ++ lineOf c; err := None |}) s)
      as Hstep.
    { assert (∀ op name,
        length (if Contains name newline || bool_decide (name = "")
                then [] else line op name) ≤ length (lineOf c) →
        add op name s =
          plugged (Some {| wr := wr b;
                           buf := buf b ++
                             (if Contains name newline || bool_decide (name = "")
                              then [] else line op name);
                           err := None |}) s) as Hadd.
      { intros op name.
        destruct (decide (name = "" ∨ LF ∈ list_ascii_of_string name))
          as [Hbad|Hgood].
        - rewrite lineOf_bad, add_dropped by done. intros _.
          rewrite app_nil_r, <- He, writer_eta, <- Hw. symmetry. apply plugged_same.
        - assert (name ≠ "" ∧ LF ∉ list_ascii_of_string name) as [Hne Hnl] by tauto.
          rewrite lineOf_good, (add_writes op name s b) by done. cbn zeta.
          intros Hline. rewrite add_line_fits; [done | done |]. unfold fits. lia. }
      destruct c; try discriminate Hc; cbn [step lineOf] in *; by apply Hadd. }
    rewrite run_cons, Hstep.
    rewrite (IH Hcs _ {| wr := wr b; buf := buf b ++ lineOf c; err := None |});
      [|done|done|].
    + cbn [wr buf]. by rewrite plugged_plugged, <- app_assoc.
    + unfold fits. cbn [buf]. rewrite length_app. lia.
Qed.

(** A log of at most 4096 bytes reaches its sink at [StopTestLog] only.
    When the header (if this start is the first of the process) and the
    lines of the records fit the buffer of the writer, the record calls
    change nothing but this buffer, which holds all of them, and until
    [StopTestLog] is called no sink has received a byte. *)
Theorem short_log_buffered (s : world) (k : nat) (cs : list call) :
  forallb isRecord cs = true →
  length (preamble s ++ logged cs) ≤ defaultBufSize →
  run cs (StartTestLog k s) =
    plugged (Some {| wr := k; buf := preamble s ++ logged cs; err := None |})
      (StartTestLog k s) ∧
  files (run cs (StartTestLog k s)) = files s.
Proof.
  intros Hcs Hlen.
  assert (run cs (StartTestLog k s) =
    plugged (Some {| wr := k; buf := preamble s ++ logged cs; err := None |})
      (StartTestLog k s)) as Hrun.
  { rewrite (run_fits cs Hcs _ {| wr := k; buf := preamble s; err := None |});
      [done | by rewrite StartTestLog_writer | done |].
    unfold fits. cbn [buf]. by rewrite <- length_app. }
  split; [done|]. rewrite Hrun, StartTestLog_writer. done.
Qed.

(** Two records after a start: no file has been created yet. *)
Lemma short_log_buffered_witness :
  files (run [COpen "/tmp/x"; CStat "/tmp/y"] (StartTestLog 0 (start ∅))) = ∅.
Proof.
  assert (length (preamble (start ∅) ++ logged [COpen "/tmp/x"; CStat "/tmp/y"])
          ≤ defaultBufSize) as Hlen by (vm_compute; lia).
  destruct (short_log_buffered (start ∅) 0 [COpen "/tmp/x"; CStat "/tmp/y"]
              eq_refl Hlen) as [_ Hfiles].
  exact Hfiles.
Defined.

(** ** After a write error *)

Lemma run_sticky (cs : list call) (s : world) (b : writer) :
  w (log s) = Some b → err b ≠ None → forallb isRecord cs = true →
  run cs s = s.
Proof.
  intros Hw He. induction cs as [|c cs IH]; [done|].
  cbn [forallb]. intros [Hc Hcs]%andb_true_iff. rewrite run_cons.
  assert (step s c = s) as ->; [|by apply IH].
  destruct c; try discriminate Hc; cbn [step]; by apply (add_sticky _ _ _ b).
Qed.

(** A write error ends the log.  Once the installed writer has an error,
    every record call that follows is dropped, whatever its name, and no
    sink changes; the [StopTestLog] that comes next returns this error,
    the first one of the session, writes nothing, and clears the writer
    slot. *)
Theorem write_error_ends_log (s : world) (b : writer) (e : ioerror)
    (cs : list call) :
  w (log s) = Some b → err b = Some e → forallb isRecord cs = true →
  run cs s = s ∧
  StopTestLog (run cs s) = (Returns (Some e), plugged None s).
Proof.
  intros Hw He Hcs.
  assert (run cs s = s) as -> by (apply (run_sticky cs s b); congruence).
  split; [done|].
  by rewrite (StopTestLog_writer s b Hw), (Flush_sticky b _ e He).
Qed.

(** On [Sample.fullDisk], where a flush has failed, two more records and
    the stop. *)
Lemma write_error_ends_log_witness :
  run [CStat "/tmp/y"; CGetenv "HOME"] Sample.fullDisk = Sample.fullDisk ∧
  (StopTestLog (run [CStat "/tmp/y"; CGetenv "HOME"] Sample.fullDisk)).1 =
    Returns (Some (ErrWrite 0)).
Proof.
  destruct (w (log Sample.fullDisk)) as [b|] eqn:Hw;
    [|vm_compute in Hw; discriminate Hw].
  assert (err b = Some (ErrWrite 0)) as He.
  { vm_compute in Hw. injection Hw as <-. reflexivity. }
  destruct (write_error_ends_log Sample.fullDisk b (ErrWrite 0)
              [CStat "/tmp/y"; CGetenv "HOME"] Hw He eq_refl) as [Hrun Hstop].
  split; [exact Hrun|]. rewrite Hstop. reflexivity.
Defined.

(** ** The sinks over any calls *)

(** What a call does to the sinks: with a writer installed its sink takes
    some bytes, after those it holds, and no other sink changes; with none
    installed no sink changes. *)
Lemma step_pushed (s : world) (c : call) :
  match w (log s) with
  | Some b => ∃ f, pushed (wr b) f (files s) (files (step s c))
  | None => files (step s c) = files s
  end.
Proof.
  destruct (isRecord c) eqn:Hc.
  - destruct (w (log s)) as [b|] eqn:Hw.
    + destruct (step_gave c s b Hc Hw) as (b' & _ & _ & _ & f & Hp & _).
      by exists f.
    + assert (step s c = s) as ->; [|done].
      destruct c; try discriminate Hc; cbn [step]; by apply add_no_writer.
  - destruct c; try discriminate Hc; cbn [step].
    + rewrite StartTestLog_writer. cbn [files].
      destruct (w (log s)); [|done]. exists []. apply pushed_refl.
    + destruct (w (log s)) as [b|] eqn:Hw.
      * rewrite (StopTestLog_writer s b Hw). cbn [snd files].
        destruct (Flush_gave b (files s)) as (_ & _ & f & Hp & _). by exists f.
      * by rewrite (StopTestLog_no_writer s Hw).
Qed.

(** The writer a call leaves installed is on the sink of the writer it
    found, or on the sink the call is a start on. *)
Lemma step_writer (s : world) (c : call) (b' : writer) :
  w (log (step s c)) = Some b' →
  c = CStart (wr b') ∨ ∃ b, w (log s) = Some b ∧ wr b' = wr b.
Proof.
  destruct (isRecord c) eqn:Hc.
  - destruct (w (log s)) as [b|] eqn:Hw.
    + destruct (step_gave c s b Hc Hw) as (b1 & Hw1 & Hwr & _).
      intros Hb'. right. exists b. split; [done|]. cbn [fst] in Hwr. congruence.
    + assert (step s c = s) as ->; [|congruence].
      destruct c; try discriminate Hc; cbn [step]; by apply add_no_writer.
  - destruct c; try discriminate Hc; cbn [step].
    + rewrite StartTestLog_writer. cbn [log w]. intros [= <-]. by left.
    + by rewrite StopTestLog_clears.
Qed.

(** The logger only ever appends.  Over any calls, from any state and
    whatever the sinks do, every sink holds at the end what it held at the
    beginning, followed by what it took since: no call takes bytes back
    from a sink or changes bytes a sink holds. *)
Theorem sinks_only_grow (cs : list call) (s : world) (j : nat) :
  written (files s !!! j) `prefix_of` written (files (run cs s) !!! j).
Proof.
  revert s. induction cs as [|c cs IH]; intros s; [done|].
  rewrite run_cons. etrans; [|apply IH].
  pose proof (step_pushed s c) as Hstep.
  destruct (w (log s)) as [b|]; [|by rewrite Hstep].
  destruct Hstep as (f & Hw & _ & _ & Hframe).
  destruct (decide (j = wr b)) as [->|Hj].
  - rewrite Hw. by apply prefix_app_r.
  - by rewrite Hframe.
Qed.

(** The logger writes to the sinks it was started on, and to no other.  A
    sink that the installed writer (if there is one) is not on, and that
    no [StartTestLog] among the calls is given, is after the calls as it
    was before them. *)
Theorem other_sinks_untouched (cs : list call) (s : world) (j : nat) :
  (∀ b, w (log s) = Some b → wr b ≠ j) →
  CStart j ∉ cs →
  files (run cs s) !!! j = files s !!! j.
Proof.
  revert s. induction cs as [|c cs IH]; intros s Hw Hcs; [done|].
  apply not_elem_of_cons in Hcs as [Hc Hcs].
  rewrite run_cons, IH; [| |done].
  - pose proof (step_pushed s c) as Hstep.
    destruct (w (log s)) as [b|]; [|by rewrite Hstep].
    destruct Hstep as (f & _ & _ & _ & Hframe). apply Hframe.
    intros ->. by apply (Hw b).
  - intros b' Hb' Hj. apply step_writer in Hb' as [Hc'|(b & Hb & Hwr)].
    + apply Hc. by rewrite Hc', Hj.
    + apply (Hw b Hb). congruence.
Qed.

(** A session on sink 0 leaves sink 1, which takes five bytes, alone. *)
Lemma other_sinks_untouched_witness :
  files (run [CStart 0; COpen "/tmp/x"; CStop]
           (start {[1 := Sample.roomFor 5]})) !!! 1 =
  Sample.roomFor 5.
Proof.
  rewrite (other_sinks_untouched [CStart 0; COpen "/tmp/x"; CStop]
             (start {[1 := Sample.roomFor 5]}) 1).
  - reflexivity.
  - intros b Hb. discriminate Hb.
  - intros Hin.
    repeat (apply elem_of_cons in Hin as [Hin|Hin]; [discriminate Hin|]).
    apply elem_of_nil in Hin. exact Hin.
Defined.

(** ** Reading the log back *)

Lemma lineOf_recordOf (c : call) :
  lineOf c = match recordOf c with
             | Some (op, name) => line op name
             | None => []
             end.
Proof.
  destruct c as [name|name|name|name|k|]; cbn [lineOf recordOf]; try done;
    by destruct (Contains name newline || bool_decide (name = "")).
Qed.

(** The operation of a logged record has no space and its name has no
    newline. *)
Lemma recordOf_good (c : call) (op name : string) :
  recordOf c = Some (op, name) →
  (SP ∉ list_ascii_of_string op) ∧ (LF ∉ list_ascii_of_string name).
Proof.
  assert (∀ op' name',
            SP ∉ list_ascii_of_string op' →
            (if Contains name' newline || bool_decide (name' = "") then None
             else Some (op', name')) = Some (op, name) →
            (SP ∉ list_ascii_of_string op) ∧ (LF ∉ list_ascii_of_string name))
    as Hrec.
  { intros op' name' Hop.
    destruct (Contains name' newline || bool_decide (name' = "")) eqn:Hguard;
      [done|]. intros [= <- <-]. split; [done|]. intros Hnl.
    assert (name' = "" ∨ LF ∈ list_ascii_of_string name') as Hbad by by right.
    apply add_guard in Hbad. congruence. }
  destruct c as [name'|name'|name'|name'|k|]; cbn [recordOf]; try done;
    apply Hrec; apply (bool_decide_unpack _); by vm_compute.
Qed.

(** A line ends at its newline and its operation at the first space. *)
Lemma line_inj (op op' name name' : string) (r r' : list ascii) :
  SP ∉ list_ascii_of_string op → SP ∉ list_ascii_of_string op' →
  LF ∉ list_ascii_of_string name → LF ∉ list_ascii_of_string name' →
  line op name ++ r = line op' name' ++ r' →
  op = op' ∧ name = name' ∧ r = r'.
Proof.
  intros Hop Hop' Hname Hname'. unfold line. rewrite <- !app_assoc. cbn [app].
  intros Heq.
  destruct (not_elem_of_app_cons_inv_l _ _ _ _ _ _ Hop' Hop Heq)
    as (Hops & _ & Hrest).
  destruct (not_elem_of_app_cons_inv_l _ _ _ _ _ _ Hname' Hname Hrest)
    as (Hnames & _ & Hr).
  apply (f_equal string_of_list_ascii) in Hops, Hnames.
  rewrite !string_of_list_ascii_of_string in Hops, Hnames. done.
Qed.

Lemma records_cons (c : call) (cs : list call) :
  omap recordOf (c :: cs) =
    match recordOf c with
    | Some r => r :: omap recordOf cs
    | None => omap recordOf cs
    end.
Proof. done. Qed.

Lemma line_not_nil (op name : string) (r : list ascii) : line op name ++ r ≠ [].
Proof.
  intros Heq. apply (f_equal length) in Heq. unfold line in Heq.
  rewrite !length_app in Heq. cbn [length] in Heq. lia.
Qed.

(** The lines tell which records were made, and in which order. *)
Lemma logged_inj (cs cs' : list call) :
  logged cs = logged cs' → omap recordOf cs = omap recordOf cs'.
Proof.
  revert cs'. induction cs as [|c cs IH]; intros cs'.
  - induction cs' as [|c' cs' IH']; [done|].
    rewrite logged_cons, lineOf_recordOf, records_cons.
    destruct (recordOf c') as [[op name]|]; [|apply IH'].
    intros Heq. symmetry in Heq. by apply line_not_nil in Heq.
  - rewrite logged_cons, lineOf_recordOf, records_cons.
    destruct (recordOf c) as [[op name]|] eqn:Hc; [|apply IH].
    destruct (recordOf_good c op name Hc) as [Hop Hname].
    induction cs' as [|c' cs' IH'].
    + intros Heq. by apply line_not_nil in Heq.
    + rewrite logged_cons, lineOf_recordOf, records_cons.
      destruct (recordOf c') as [[op' name']|] eqn:Hc'; [|apply IH'].
      destruct (recordOf_good c' op' name' Hc') as [Hop' Hname'].
      intros Heq.
      destruct (line_inj _ _ _ _ _ _ Hop Hop' Hname Hname' Heq)
        as (-> & -> & Hrest).
      f_equal. by apply IH.
Qed.

(** The log can be read back.  [add] keeps names with a newline out of
    the log, so a line is one record: when two sessions that start on the
    same state both end with a nil [StopTestLog] and leave the same bytes
    in the sink, their calls made the same records (operation and name of
    each call with a good name), in the same order. *)
Theorem log_names_records (s : world) (k : nat) (cs cs' : list call) :
  forallb isRecord cs = true → forallb isRecord cs' = true →
  (StopTestLog (run cs (StartTestLog k s))).1 = Returns None →
  (StopTestLog (run cs' (StartTestLog k s))).1 = Returns None →
  written (files (StopTestLog (run cs (StartTestLog k s))).2 !!! k) =
    written (files (StopTestLog (run cs' (StartTestLog k s))).2 !!! k) →
  omap recordOf cs = omap recordOf cs'.
Proof.
  intros Hcs Hcs' Hnil Hnil'.
  rewrite (session_nil_written s k cs Hcs Hnil).
  rewrite (session_nil_written s k cs' Hcs' Hnil').
  intros Heq. do 2 apply app_inv_head in Heq. by apply logged_inj.
Qed.

(** Two sessions that log [open /tmp/x] and drop another call each. *)
Lemma log_names_records_witness :
  omap recordOf [COpen "/tmp/x"; CStat ""] =
  omap recordOf [CGetenv newline; COpen "/tmp/x"].
Proof.
  apply (log_names_records (start ∅) 0).
  - reflexivity.
  - reflexivity.
  - vm_compute. reflexivity.
  - vm_compute. reflexivity.
  - vm_compute. reflexivity.
Defined.

(** ** Several sessions *)

Lemma run_session (k : nat) (cs rest : list call) (s : world) :
  run (session k cs ++ rest) s =
    run rest (StopTestLog (run cs (StartTestLog k s))).2.
Proof. unfold session, run. cbn [app foldl]. by rewrite !foldl_app. Qed.

Lemma run_records_set (cs : list call) (s : world) :
  forallb isRecord cs = true → set (log (run cs s)) = set (log s).
Proof.
  revert s. induction cs as [|c cs IH]; intros s; [done|].
  cbn [forallb]. intros [Hc Hcs]%andb_true_iff.
  rewrite run_cons, IH by done.
  destruct (step_set s c) as [-> _].
  destruct c; try discriminate Hc; apply orb_false_r.
Qed.

Lemma session_set (s : world) (k : nat) (cs : list call) :
  forallb isRecord cs = true →
  set (log (StopTestLog (run cs (StartTestLog k s))).2) = true.
Proof.
  intros Hcs. destruct (StopTestLog_set (run cs (StartTestLog k s))) as [-> _].
  rewrite run_records_set by done. by rewrite StartTestLog_writer.
Qed.

(** Sessions after the first, on a sink that never fails: the sink takes
    the lines of each, and no header. *)
Lemma later_sessions (k : nat) (css : list (list call)) :
  Forall (λ cs, forallb isRecord cs = true) css →
  ∀ s : world,
    set (log s) = true → room (files s !!! k) = None →
    pushed k (mjoin (logged <$> css)) (files s)
      (files (run (mjoin (session k <$> css)) s)).
Proof.
  induction 1 as [|cs css Hcs _ IH]; intros s Hset Hroom; [apply pushed_refl|].
  change (mjoin (session k <$> cs :: css))
    with (session k cs ++ mjoin (session k <$> css)).
  change (mjoin (logged <$> cs :: css)) with (logged cs ++ mjoin (logged <$> css)).
  rewrite run_session.
  destruct (session_room s k cs Hcs) as (_ & Hp).
  { unfold roomy. cbn [NewWriter wr]. by rewrite Hroom. }
  unfold preamble in Hp. rewrite Hset, app_nil_l in Hp.
  eapply pushed_trans; [exact Hp|]. apply IH.
  - by apply session_set.
  - destruct Hp as (_ & -> & _). by rewrite Hroom.
Qed.

(** The header is written once in the life of the process.  A test that
    calls [m.Run] several times starts and stops the log several times;
    after any number of sessions on one sink that never fails, the first
    of them the first of the process, the sink holds what it held, then
    one header, then the lines of the records of all sessions, in order. *)
Theorem header_written_once (σ : sinks) (k : nat) (cs : list call)
    (css : list (list call)) :
  room (σ !!! k) = None →
  forallb isRecord cs = true →
  Forall (λ cs, forallb isRecord cs = true) css →
  written (files (run (mjoin (session k <$> cs :: css)) (start σ)) !!! k) =
    written (σ !!! k) ++ list_ascii_of_string header ++ logged cs ++
    mjoin (logged <$> css).
Proof.
  intros Hroom Hcs Hcss.
  change (mjoin (session k <$> cs :: css))
    with (session k cs ++ mjoin (session k <$> css)).
  rewrite run_session.
  destruct (session_room (start σ) k cs Hcs) as (_ & Hp).
  { unfold roomy. cbn [NewWriter wr start files]. by rewrite Hroom. }
  destruct (later_sessions k css Hcss
              (StopTestLog (run cs (StartTestLog k (start σ)))).2)
    as (-> & _).
  - by apply session_set.
  - destruct Hp as (_ & -> & _). cbn [start files]. by rewrite Hroom.
  - destruct Hp as (-> & _). cbn [start files preamble log set].
    by rewrite <- !app_assoc.
Qed.

(** Three sessions, the last one without a record. *)
Lemma header_written_once_witness :
  written (files (run [CStart 0; COpen "/tmp/x"; CStop;
                       CStart 0; CStat "/tmp/y"; CStop;
                       CStart 0; CStop] (start ∅)) !!! 0) =
  list_ascii_of_string header ++ line "open" "/tmp/x" ++ line "stat" "/tmp/y".
Proof.
  assert (room ((∅ : sinks) !!! 0) = None) as Hroom
    by (vm_compute; reflexivity).
  assert (Forall (λ cs, forallb isRecord cs = true) [[CStat "/tmp/y"]; []])
    as Hlater by (repeat constructor).
  etrans; [exact (header_written_once ∅ 0 [COpen "/tmp/x"] [[CStat "/tmp/y"]; []]
                    Hroom eq_refl Hlater)|].
  vm_compute. reflexivity.
Defined.

End LoggerFacts.

(** * Properties of the goroutine model *)

Module ConcurrentFacts.
Import Bufio BufioFacts Logger LoggerFacts Concurrent.

#[local] Arguments WriteString : simpl never.
#[local] Arguments WriteByte : simpl never.
#[local] Arguments Flush : simpl never.

(** ** The statements of a method make up the method *)

Lemma exec_all_addCode (op name : string) (s : world) :
  Contains name newline || bool_decide (name = "") = false →
  exec_all (addCode op name) s None 0 = (Returns None, add op name s).
Proof.
  intros Hguard. unfold add. rewrite Hguard. unfold addCode.
  cbn [exec_all exec]. destruct (w (log s)) as [b|] eqn:Hw; [|done].
  cbn [exec_all exec log w files set registered fst snd].
  by rewrite <- !surjective_pairing.
Qed.

Lemma exec_all_code (c : call) (s : world) :
  guard c = true → exec_all (code c) s None 0 = (result c s, step s c).
Proof.
  destruct c as [key|name|name|name|k|]; cbn [guard code result step];
    try (intros Hg%negb_true_iff; by apply exec_all_addCode).
  - intros _. unfold StartTestLog.
    cbn [exec_all exec]. unfold plugged.
    cbn [exec_all exec log set w files registered].
    destruct (set (log s)); [done|].
    cbn [exec_all exec negb SetLogger log set w files registered fst snd]. done.
  - intros _. unfold StopTestLog. cbn [exec_all exec].
    destruct (w (log s)) as [b|]; [|done].
    by destruct (Flush b (files s)) as [[e b'] σ].
Qed.

Lemma step_unguarded (c : call) (s : world) : guard c = false → step s c = s.
Proof.
  destruct c as [key|name|name|name|k|]; cbn [guard step]; try done;
    intros Hg%negb_false_iff; unfold Getenv, Open, Stat, Chdir, add;
    by rewrite Hg.
Qed.

Lemma result_start (c : call) (s : world) :
  deferred c = false → result c s ≠ Panics.
Proof. by destruct c. Qed.

(** ** Replacing one goroutine in the pool *)

Lemma total_insert (f : thread → nat) (ts : list thread) (i : nat) (t t' : thread) :
  ts !! i = Some t →
  total f (<[i := t']> ts) + f t = total f ts + f t'.
Proof.
  unfold total. revert i. induction ts as [|u ts IH]; intros [|i] Hi;
    try done; csimpl in *.
  - injection Hi as ->. lia.
  - specialize (IH i Hi). lia.
Qed.

Lemma callOf_insert (ts : list thread) (i : nat) (t t' : thread) :
  ts !! i = Some t → callOf t' = callOf t →
  callOf <$> <[i := t']> ts = callOf <$> ts.
Proof.
  intros Hi Hc. rewrite list_fmap_insert, Hc.
  apply list_insert_id. by rewrite list_lookup_fmap, Hi.
Qed.

Lemma finished_insert_same (ts : list thread) (i : nat) (t t' : thread) :
  ts !! i = Some t → finishedCall t = None → finishedCall t' = None →
  omap finishedCall (<[i := t']> ts) = omap finishedCall ts.
Proof.
  revert i. induction ts as [|u ts IH]; intros [|i] Hi Ht Ht'; try done;
    csimpl in *.
  - injection Hi as ->. by rewrite Ht, Ht'.
  - by rewrite (IH i).
Qed.

Lemma finished_insert_new (ts : list thread) (i : nat) (t t' : thread) (c : call) :
  ts !! i = Some t → finishedCall t = None → finishedCall t' = Some c →
  omap finishedCall (<[i := t']> ts) ≡ₚ omap finishedCall ts ++ [c].
Proof.
  revert i. induction ts as [|u ts IH]; intros [|i] Hi Ht Ht'; try done;
    csimpl in *.
  - injection Hi as ->. rewrite Ht, Ht'. csimpl.
    apply Permutation_cons_append.
  - destruct (finishedCall u); csimpl; [apply perm_skip|]; by apply IH.
Qed.

Lemma run_app (cs1 cs2 : list call) (s : world) :
  run (cs1 ++ cs2) s = run cs2 (run cs1 s).
Proof. unfold run. by rewrite foldl_app. Qed.

Lemma mid_active (t : thread) (sh base : world) :
  mid t sh base → active t = true.
Proof. by destruct t. Qed.

Lemma tstep_callOf (t t' : thread) (s s' : world) (mu mu' : bool) :
  tstep t s mu = Some (t', s', mu') → callOf t' = callOf t.
Proof.
  destruct t as [c|c [|st rest] [|k] ret|c|c r]; cbn [tstep];
    repeat case_match; intros [=]; subst; done.
Qed.

Lemma serial_boot (s0 : world) (cs : list call) : serial s0 cs (boot s0 cs).
Proof.
  split.
  - cbn. rewrite <- list_fmap_compose. by rewrite list_fmap_id.
  - exists []. cbn. split; [|split; [done|]].
    + induction cs as [|c cs IH]; [done|]. by csimpl.
    + intros j u [c [-> _]]%list_lookup_fmap_Some. done.
Qed.

(** The pool after goroutine [i] went from [t] to [t']: who is active. *)
Lemma active_insert (ts : list thread) (i j : nat) (t t' u : thread) :
  ts !! i = Some t → <[i := t']> ts !! j = Some u →
  (j = i ∧ u = t') ∨ (j ≠ i ∧ ts !! j = Some u).
Proof.
  intros Hi Hj. destruct (decide (j = i)) as [-> | Hne].
  - left. split; [done|].
    rewrite list_lookup_insert_eq in Hj by by eapply lookup_lt_Some.
    congruence.
  - right. split; [done|]. by rewrite list_lookup_insert_ne in Hj.
Qed.

(** The step that ends the call of the active goroutine [i] and frees the
    mutex: its call alone takes the state after [hist] to [s']. *)
Lemma serial_finish (s0 : world) (cs hist : list call) (m : machine)
    (i : nat) (t : thread) (c : call) (r : outcome (option ioerror))
    (s' : world) :
  callOf <$> pool m = cs →
  hist ≡ₚ omap finishedCall (pool m) →
  pool m !! i = Some t → callOf t = c → finishedCall t = None →
  s' = step (run hist s0) c →
  (∀ j u, pool m !! j = Some u → active u = true → j = i) →
  serial s0 cs
    {| shared := s'; mu := false; pool := <[i := Finished c r]> (pool m) |}.
Proof.
  intros Hcs Hhist Hi Hc Hfin Hs' Huniq. split.
  - cbn. rewrite <- Hcs. by apply (callOf_insert _ _ t).
  - exists (hist ++ [c]). cbn [shared mu pool]. split.
    { rewrite Hhist. symmetry. by apply (finished_insert_new _ _ t). }
    rewrite run_app. cbn [run foldl]. fold (run hist s0). rewrite <- Hs'.
    split; [done|]. intros j u Hj.
    destruct (active_insert _ _ _ _ _ _ Hi Hj) as [[-> ->] | [Hji Hj']];
      [done|]. destruct (active u) eqn:Hu; [|done].
    by destruct Hji, (Huniq j u Hj' Hu).
Qed.

(** The step of a call that returns before [Lock]. *)
Lemma serial_skip (s0 : world) (cs : list call) (m : machine)
    (i : nat) (c : call) :
  serial s0 cs m → pool m !! i = Some (Waiting c) → guard c = false →
  serial s0 cs
    {| shared := shared m; mu := mu m;
       pool := <[i := Finished c (Returns None)]> (pool m) |}.
Proof.
  intros [Hcs (hist & Hhist & Hmu)] Hi Hg. split.
  - cbn. rewrite <- Hcs. by apply (callOf_insert _ _ (Waiting c)).
  - exists (hist ++ [c]). cbn [shared mu pool]. split.
    { rewrite Hhist. symmetry. by apply (finished_insert_new _ _ (Waiting c)). }
    rewrite run_app. cbn [run foldl]. fold (run hist s0).
    rewrite (step_unguarded c _ Hg). destruct (mu m).
    + destruct Hmu as (i0 & t0 & Hi0 & Hmid & Huniq).
      assert (i0 ≠ i) as Hne.
      { intros ->. rewrite Hi in Hi0. injection Hi0 as <-. done. }
      exists i0, t0. split; [by rewrite list_lookup_insert_ne|].
      split; [done|]. intros j u Hj Hu.
      destruct (active_insert _ _ _ _ _ _ Hi Hj) as [[-> ->] | [Hji Hj']];
        [done|]. by apply (Huniq j u).
    + destruct Hmu as [Hsh Hnone]. split; [done|]. intros j u Hj.
      destruct (active_insert _ _ _ _ _ _ Hi Hj) as [[-> ->] | [Hji Hj']];
        [done|]. by apply (Hnone j u).
Qed.

(** A step after which goroutine [i] is the active one. *)
Lemma serial_hold (s0 : world) (cs hist : list call) (m : machine)
    (i : nat) (t t' : thread) (s' : world) :
  callOf <$> pool m = cs →
  hist ≡ₚ omap finishedCall (pool m) →
  pool m !! i = Some t → callOf t' = callOf t → finishedCall t = None →
  mid t' s' (run hist s0) →
  (∀ j u, pool m !! j = Some u → active u = true → j = i) →
  serial s0 cs {| shared := s'; mu := true; pool := <[i := t']> (pool m) |}.
Proof.
  intros Hcs Hhist Hi Hc Hfin Hmid Huniq. split.
  - cbn. rewrite <- Hcs. by apply (callOf_insert _ _ t).
  - exists hist. cbn [shared mu pool]. split.
    { rewrite Hhist. symmetry.
      rewrite (finished_insert_same _ _ t); [done..|].
      apply mid_active in Hmid. by destruct t'. }
    exists i, t'. split.
    { apply list_lookup_insert_eq. by eapply lookup_lt_Some. }
    split; [done|]. intros j u Hj Hu.
    destruct (active_insert _ _ _ _ _ _ Hi Hj) as [[-> ->] | [Hji Hj']];
      [done|]. by apply (Huniq j u).
Qed.

(** Every step keeps the machine in the middle of a serial run. *)
Lemma serial_mstep (s0 : world) (cs : list call) (m m' : machine) (i : nat) :
  serial s0 cs m → mstep i m = Some m' → serial s0 cs m'.
Proof.
  intros Hser Hstep. unfold mstep in Hstep.
  destruct (pool m !! i) as [t|] eqn:Hi; [|done]. cbn in Hstep.
  destruct (tstep t (shared m) (mu m)) as [[[t' s'] mu']|] eqn:Ht; [|done].
  cbn in Hstep. injection Hstep as <-.
  destruct t as [c|c cd skip ret|c|c r]; [| | |done].
  - (* not yet at Lock *)
    cbn [tstep] in Ht. destruct (guard c) eqn:Hg; cbn [negb] in Ht.
    + destruct (mu m) eqn:Hmu; [done|]. injection Ht as <- <- <-.
      destruct Hser as [Hcs (hist & Hhist & Hfree)]. rewrite Hmu in Hfree.
      destruct Hfree as [Hsh Hnone].
      apply (serial_hold s0 cs hist m i (Waiting c)); try done.
      * cbn [mid]. rewrite Hsh. by apply exec_all_code.
      * intros j u Hj Hu. by rewrite (Hnone j u Hj) in Hu.
    + injection Ht as <- <- <-. by apply serial_skip.
  - (* holding the mutex *)
    destruct Hser as [Hcs (hist & Hhist & Hheld)].
    destruct (mu m) eqn:Hmu;
      [|destruct Hheld as [_ Hnone]; by specialize (Hnone i _ Hi)].
    destruct Hheld as (i0 & t0 & Hi0 & Hmid & Huniq).
    assert (i0 = i) as -> by (symmetry; by apply (Huniq i _ Hi)).
    rewrite Hi in Hi0. injection Hi0 as <-. cbn [mid] in Hmid.
    destruct cd as [|st rest]; [|destruct skip as [|k]]; cbn [tstep] in Ht.
    + injection Ht as <- <- <-. cbn [exec_all] in Hmid.
      injection Hmid as Hr Hs.
      by apply (serial_finish s0 cs hist m i (Locked c [] skip ret)).
    + cbn [exec_all] in Hmid.
      destruct (exec st (shared m) ret) as [[ctl s1] ret1].
      destruct ctl; injection Ht as <- <- <-;
        try (by apply (serial_hold s0 cs hist m i (Locked c (st :: rest) 0 ret))).
      injection Hmid as Hr Hs. destruct (deferred c) eqn:Hd.
      * by apply (serial_hold s0 cs hist m i (Locked c (st :: rest) 0 ret)).
      * by destruct (result_start c (run hist s0) Hd).
    + injection Ht as <- <- <-. cbn [exec_all] in Hmid.
      by apply (serial_hold s0 cs hist m i (Locked c (st :: rest) (S k) ret)).
  - (* panicked, the deferred Unlock to run *)
    cbn [tstep] in Ht. injection Ht as <- <- <-.
    destruct Hser as [Hcs (hist & Hhist & Hheld)].
    destruct (mu m) eqn:Hmu;
      [|destruct Hheld as [_ Hnone]; by specialize (Hnone i _ Hi)].
    destruct Hheld as (i0 & t0 & Hi0 & Hmid & Huniq).
    assert (i0 = i) as -> by (symmetry; by apply (Huniq i _ Hi)).
    rewrite Hi in Hi0. injection Hi0 as <-. destruct Hmid as [Hr Hs].
    by apply (serial_finish s0 cs hist m i (Panicking c)).
Qed.

Lemma serial_msteps (s0 : world) (cs : list call) (n : nat) (m : machine) :
  msteps n (boot s0 cs) m → serial s0 cs m.
Proof.
  remember (boot s0 cs) as m0 eqn:Hm0. induction 1 as [m|n m i m' m'' _ IH Hstep].
  - subst. apply serial_boot.
  - eapply serial_mstep; [by apply IH | done].
Qed.

Lemma finished_all (ts : list thread) :
  (∀ t, t ∈ ts → finishedCall t ≠ None) →
  omap finishedCall ts = callOf <$> ts.
Proof.
  induction ts as [|t ts IH]; intros Hall; [done|]. csimpl.
  rewrite IH by (intros u Hu; apply Hall; by right).
  specialize (Hall t ltac:(by left)). by destruct t.
Qed.

(** Goroutines calling the logger at once leave the state that the same
    calls leave when made one after the other, in some order: once every
    goroutine is back, the shared state is [run cs' s0] for a permutation
    [cs'] of the calls, and the mutex is free. *)
Theorem calls_serialize (s0 : world) (cs : list call) (n : nat) (m : machine) :
  msteps n (boot s0 cs) m →
  quiescent m →
  ∃ cs', cs' ≡ₚ cs ∧ shared m = run cs' s0 ∧ mu m = false.
Proof.
  intros Hreach Hquiet.
  destruct (serial_msteps s0 cs n m Hreach) as [Hcs (hist & Hhist & Hmu)].
  rewrite (finished_all _ Hquiet), Hcs in Hhist.
  destruct (mu m).
  - destruct Hmu as (i & t & Hi & Hmid & _).
    apply mid_active in Hmid.
    destruct (Hquiet t); [by eapply list_elem_of_lookup_2 | by destruct t].
  - destruct Hmu as [Hsh _]. by exists hist.
Qed.


(** Every step uses up some of the steps the goroutines have left. *)
Lemma mstep_weight (i : nat) (m m' : machine) :
  mstep i m = Some m' →
  total weight (pool m') < total weight (pool m).
Proof.
  unfold mstep. intros Hstep.
  destruct (pool m !! i) as [t|] eqn:Hi; [|done]. cbn in Hstep.
  destruct (tstep t (shared m) (mu m)) as [[[t' s'] mu']|] eqn:Ht; [|done].
  cbn in Hstep. injection Hstep as <-. cbn [pool].
  pose proof (total_insert weight _ _ _ t' Hi) as Htotal.
  assert (weight t' < weight t); [|lia].
  destruct t as [c|c [|st rest] [|k] ret|c|c r]; cbn [tstep] in Ht;
    repeat case_match; simplify_eq; cbn [weight length]; lia.
Qed.

(** No call blocks for ever: while a goroutine is still in its call some
    goroutine can step, and the machine cannot make more steps than the
    statements of the calls (with three more for each call) allow. *)
Theorem calls_return (s0 : world) (cs : list call) (n : nat) (m : machine) :
  msteps n (boot s0 cs) m →
  n + total weight (pool m) ≤ total weight (pool (boot s0 cs)) ∧
  ((∃ t, t ∈ pool m ∧ finishedCall t = None) →
   ∃ i m', mstep i m = Some m').
Proof.
  intros Hreach. split.
  - clear -Hreach. remember (boot s0 cs) as m0 eqn:Hm0.
    induction Hreach as [m|n m i m' m'' _ IH Hstep]; [lia|].
    specialize (IH Hm0). apply mstep_weight in Hstep. lia.
  - destruct (serial_msteps s0 cs n m Hreach) as [_ (hist & _ & Hmu)].
    intros (t & [j Hj]%list_elem_of_lookup_1 & Hfin). destruct (mu m) eqn:Hheld.
    + destruct Hmu as (i & u & Hi & Hmid%mid_active & _).
      exists i. unfold mstep. rewrite Hi. cbn.
      destruct u as [c|c [|st rest] [|k] ret|c|c r]; try done; cbn [tstep];
        rewrite ?Hheld; repeat case_match; cbn; eauto.
    + destruct Hmu as [_ Hnone]. specialize (Hnone j t Hj).
      exists j. unfold mstep. rewrite Hj. cbn.
      destruct t as [c|c cd skip ret|c|c r]; try done. cbn [tstep].
      rewrite Hheld. destruct (negb (guard c)); cbn; eauto.
Qed.

(** ** A schedule, run *)

Lemma msteps_cons (n : nat) (i : nat) (m m1 m' : machine) :
  mstep i m = Some m1 → msteps n m1 m' → msteps (S n) m m'.
Proof.
  intros Hstep. induction 1 as [m1|n m1 j m2 m3 _ IH Hj].
  - eapply msteps_step; [apply msteps_refl | done].
  - eapply msteps_step; [by apply IH | done].
Qed.

Lemma sched_msteps (ix : list nat) :
  ∀ m m', sched ix m = Some m' → msteps (length ix) m m'.
Proof.
  induction ix as [|i ix IH]; intros m m' Hrun; cbn [sched length] in *.
  - injection Hrun as <-. apply msteps_refl.
  - destruct (mstep i m) as [m1|] eqn:Hi; [|done]. cbn in Hrun.
    eapply msteps_cons; [done | by apply IH].
Qed.

Lemma quiescent_pool (m : machine) :
  forallb (λ t, bool_decide (finishedCall t ≠ None)) (pool m) = true →
  quiescent m.
Proof.
  intros Hall t Ht. rewrite forallb_forall in Hall.
  apply list_elem_of_In, Hall in Ht. by apply bool_decide_eq_true in Ht.
Qed.

(** The schedule [Sample.raceSchedule] runs to the end, all goroutines
    back. *)
Lemma calls_serialize_witness :
  ∃ m, sched Sample.raceSchedule (boot Sample.started Sample.raceCalls) = Some m ∧
       ∃ cs', cs' ≡ₚ Sample.raceCalls ∧ shared m = run cs' Sample.started.
Proof.
  destruct (sched Sample.raceSchedule (boot Sample.started Sample.raceCalls))
    as [m|] eqn:Hrun; [|vm_compute in Hrun; discriminate Hrun].
  exists m. split; [reflexivity|].
  pose proof (sched_msteps _ _ _ Hrun) as Hsteps.
  assert (quiescent m) as Hquiet.
  { apply quiescent_pool. vm_compute in Hrun. injection Hrun as <-.
    vm_compute. reflexivity. }
  destruct (calls_serialize Sample.started Sample.raceCalls _ m Hsteps Hquiet)
    as (cs' & Hperm & Hshared & _).
  exists cs'. split; assumption.
Defined.


(** Five steps into the schedule, with the first goroutine still to run. *)
Lemma calls_return_witness :
  ∃ m, sched (take 5 Sample.raceSchedule)
         (boot Sample.started Sample.raceCalls) = Some m ∧
       5 + total weight (pool m) ≤ 24 ∧
       ∃ i m', mstep i m = Some m'.
Proof.
  destruct (sched (take 5 Sample.raceSchedule)
              (boot Sample.started Sample.raceCalls))
    as [m|] eqn:Hrun; [|vm_compute in Hrun; discriminate Hrun].
  exists m. split; [reflexivity|].
  destruct (calls_return Sample.started Sample.raceCalls _ m
              (sched_msteps _ _ _ Hrun)) as [Hbound Hstep].
  split; [exact Hbound|]. apply Hstep.
  vm_compute in Hrun. injection Hrun as <-.
  exists (Waiting (COpen "/tmp/x")). split; [left | reflexivity].
Defined.

(** ** Lines under concurrent record calls *)

Lemma records_perm (cs cs' : list call) :
  cs' ≡ₚ cs → forallb isRecord cs = true → forallb isRecord cs' = true.
Proof.
  intros Hperm Hcs. apply forallb_forall. intros c Hc.
  eapply forallb_forall in Hcs; [done|].
  apply list_elem_of_In. rewrite <- Hperm. by apply list_elem_of_In.
Qed.

(** In the model of goroutines, record calls that race do not tear each
    other's lines.  Start a log, let goroutines make the record calls [cs]
    in any interleaving of their statements until all are back, and stop
    the log: when [StopTestLog] returns nil the sink holds what it held,
    the header (if this start was the first of the process), and then the
    whole line of every record with a good name, the lines in the order
    of some arrangement [cs'] of the calls. *)
Theorem concurrent_lines_whole (s0 : world) (k : nat) (cs : list call)
    (n : nat) (m : machine) :
  forallb isRecord cs = true →
  msteps n (boot (StartTestLog k s0) cs) m →
  quiescent m →
  (StopTestLog (shared m)).1 = Returns None →
  ∃ cs', cs' ≡ₚ cs ∧
    written (files (StopTestLog (shared m)).2 !!! k) =
      written (files s0 !!! k) ++ preamble s0 ++ logged cs'.
Proof.
  intros Hcs Hreach Hquiet Hnil.
  destruct (serial_msteps _ cs n m Hreach) as [Hpool (hist & Hhist & Hmu)].
  rewrite (finished_all _ Hquiet), Hpool in Hhist.
  destruct (mu m).
  - destruct Hmu as (i & t & Hi & Hmid & _).
    apply mid_active in Hmid.
    destruct (Hquiet t); [by eapply list_elem_of_lookup_2 | by destruct t].
  - destruct Hmu as [Hsh _]. exists hist. split; [done|].
    rewrite Hsh in *.
    apply session_nil_written; [|done]. by apply (records_perm cs).
Qed.

(** The schedule [Sample.raceSchedule], then the stop: the file holds the
    header and the two lines. *)
Lemma concurrent_lines_whole_witness :
  ∃ m cs',
    sched Sample.raceSchedule (boot Sample.started Sample.raceCalls) = Some m ∧
    cs' ≡ₚ Sample.raceCalls ∧
    written (files (StopTestLog (shared m)).2 !!! 0) =
      list_ascii_of_string header ++ logged cs'.
Proof.
  destruct (sched Sample.raceSchedule (boot Sample.started Sample.raceCalls))
    as [m|] eqn:Hrun; [|vm_compute in Hrun; discriminate Hrun].
  exists m.
  pose proof (sched_msteps _ _ _ Hrun) as Hsteps.
  assert (quiescent m ∧ (StopTestLog (shared m)).1 = Returns None)
    as [Hquiet Hnil].
  { vm_compute in Hrun. injection Hrun as <-. split.
    - apply quiescent_pool. vm_compute. reflexivity.
    - vm_compute. reflexivity. }
  destruct (concurrent_lines_whole (start ∅) 0 Sample.raceCalls _ m
              eq_refl Hsteps Hquiet Hnil) as (cs' & Hperm & Hwritten).
  exists cs'. split; [reflexivity|]. split; [exact Hperm|].
  rewrite Hwritten. reflexivity.
Defined.

End ConcurrentFacts.
